(** * bitcoin_puzzle_coordinator: range partitioning, worker lifecycle and
      statistics parsing

    A shallow embedding of [bitcoin_puzzle_coordinator.py].  Python integers
    are [Z], [str] values are [string] (read as sequences of ASCII
    characters), [float] values are binary64 numbers ([spec_float] with
    precision 53 and maximal exponent 1024), dictionaries are [gmap]s, and
    every [try]/[except] of the source is an explicit case distinction on a
    result that is either a value or a raised exception. *)

From Stdlib Require Import ZArith Lia String Ascii List Bool.
From Stdlib Require Import HexadecimalString DecimalString SpecFloat.
From Stdlib Require HexadecimalN.
From stdpp Require Import gmap strings list fin_maps.

Open Scope string_scope.
Open Scope Z_scope.

(** ** The Python builtins the coordinator relies on *)

Module Py.

(** Exceptions the modelled code can raise; the payload of [ValueError] is
    the offending literal. *)
Inductive exn :=
| ValueError (what : string)
| IndexError
| ZeroDivisionError.

Inductive result (A : Type) :=
| Ok (a : A)
| Raise (e : exn).
Arguments Ok {A} a.
Arguments Raise {A} e.

#[global] Instance result_ret : MRet result := fun _ a => Ok a.
#[global] Instance result_bind : MBind result := fun _ _ k r =>
  match r with
  | Ok a => k a
  | Raise e => Raise e
  end.

(** [str.isspace] on ASCII: TAB, LF, VT, FF, CR, FS, GS, RS, US and space. *)
Definition isspace (c : ascii) : bool :=
  let n := N_of_ascii c in
  ((9 <=? n) && (n <=? 13) || (28 <=? n) && (n <=? 32))%N.

Definition isdigit (c : ascii) : bool :=
  let n := N_of_ascii c in ((48 <=? n) && (n <=? 57))%N.

(** Value of a character as a digit in bases up to 36. *)
Definition digit_val (c : ascii) : option Z :=
  let n := Z.of_N (N_of_ascii c) in
  if (48 <=? n) && (n <=? 57) then Some (n - 48)
  else if (97 <=? n) && (n <=? 122) then Some (n - 87)
  else if (65 <=? n) && (n <=? 90) then Some (n - 55)
  else None.

Definition lower (c : ascii) : ascii :=
  let n := N_of_ascii c in
  if ((65 <=? n) && (n <=? 90))%N then ascii_of_N (n + 32) else c.

Fixpoint lower_str (s : string) : string :=
  match s with
  | EmptyString => EmptyString
  | String c s' => String (lower c) (lower_str s')
  end.

Fixpoint drop (n : nat) (s : string) : string :=
  match n, s with
  | O, _ => s
  | S k, EmptyString => EmptyString
  | S k, String _ s' => drop k s'
  end.

(** [s.startswith(p)] *)
Definition startswith (s p : string) : bool := String.prefix p s.

(** [sub in s] *)
Fixpoint contains (sub s : string) : bool :=
  match s with
  | EmptyString => String.prefix sub EmptyString
  | String _ s' => String.prefix sub s || contains sub s'
  end.

Definition cons_head (c : ascii) (l : list string) : list string :=
  match l with
  | [] => [String c EmptyString]
  | p :: ps => String c p :: ps
  end.

(** [s.split(sep)] for a non-empty [sep]: occurrences are found left to right
    and do not overlap; [skip] counts the characters of a separator that was
    just matched and still has to be passed over.  (Python raises
    [ValueError] on an empty separator; every call below passes a literal.) *)
Fixpoint split_go (sep : string) (skip : nat) (s : string) : list string :=
  match s with
  | EmptyString => [EmptyString]
  | String c s' =>
      match skip with
      | S k => split_go sep k s'
      | O =>
          if String.prefix sep s
          then EmptyString :: split_go sep (String.length sep - 1) s'
          else cons_head c (split_go sep 0 s')
      end
  end.

Definition split (s sep : string) : list string := split_go sep 0 s.

Fixpoint lstrip (s : string) : string :=
  match s with
  | EmptyString => EmptyString
  | String c s' => if isspace c then lstrip s' else s
  end.

Fixpoint rstrip (s : string) : string :=
  match s with
  | EmptyString => EmptyString
  | String c s' =>
      match rstrip s' with
      | EmptyString => if isspace c then EmptyString else String c EmptyString
      | r => String c r
      end
  end.

(** [s.strip()] *)
Definition strip (s : string) : string := rstrip (lstrip s).

(** The white space that [int()] and [float()] skip around a literal: on an
    ASCII string only TAB, LF, VT, FF, CR and space; the separators FS, GS,
    RS and US, which [str.isspace] accepts, are not skipped. *)
Definition c_isspace (c : ascii) : bool :=
  let n := N_of_ascii c in
  ((9 <=? n) && (n <=? 13) || (n =? 32))%N.

Fixpoint c_lstrip (s : string) : string :=
  match s with
  | EmptyString => EmptyString
  | String c s' => if c_isspace c then c_lstrip s' else s
  end.

Fixpoint c_rstrip (s : string) : string :=
  match s with
  | EmptyString => EmptyString
  | String c s' =>
      match c_rstrip s' with
      | EmptyString => if c_isspace c then EmptyString else String c EmptyString
      | r => String c r
      end
  end.

Definition c_strip (s : string) : string := c_rstrip (c_lstrip s).

(** [s.split()]: maximal runs of non-space characters.  [inword] tells
    whether the head of the result is a word still being read. *)
Fixpoint split_ws_go (s : string) : bool * list string :=
  match s with
  | EmptyString => (false, [])
  | String c s' =>
      let '(inword, ws) := split_ws_go s' in
      if isspace c then (false, ws)
      else if inword then (true, cons_head c ws)
      else (true, String c EmptyString :: ws)
  end.

Definition split_ws (s : string) : list string := snd (split_ws_go s).

(** [l[i]] for a non-negative literal index. *)
Definition index {A} (l : list A) (i : nat) : result A :=
  match nth_error l i with
  | Some a => Ok a
  | None => Raise IndexError
  end.

(** *** [int(s, base)] for base 10 and 16 *)

(** Digits with single underscores between them.  [need_digit] holds at the
    start and right after an underscore; the result carries the number of
    digit characters read. *)
Fixpoint digits_go (base acc : Z) (n : nat) (need_digit : bool) (s : string)
  : option (Z * nat) :=
  match s with
  | EmptyString => if need_digit then None else Some (acc, n)
  | String c s' =>
      if Ascii.eqb c "_"
      then if need_digit then None else digits_go base acc n true s'
      else match digit_val c with
           | Some d =>
               if d <? base
               then digits_go base (acc * base + d) (S n) false s'
               else None
           | None => None
           end
  end.

Definition split_sign (s : string) : bool * string :=
  match s with
  | String "-" s' => (true, s')
  | String "+" s' => (false, s')
  | _ => (false, s)
  end.

(** Default of [sys.get_int_max_str_digits()]; it limits conversions in
    bases that are not a power of two. *)
Definition int_max_str_digits : nat := 4300.

Definition int_of_str (s : string) (base : Z) : result Z :=
  let '(neg, body) := split_sign (c_strip s) in
  let body :=
    if base =? 16 then
      match body with
      | String "0" (String x rest) =>
          if Ascii.eqb (lower x) "x"
          then match rest with String "_" rest' => rest' | _ => rest end
          else body
      | _ => body
      end
    else body in
  match digits_go base 0 0 true body with
  | Some (v, n) =>
      if (base =? 10) && (int_max_str_digits <? n)%nat
      then Raise (ValueError s)
      else Ok (if neg then - v else v)
  | None => Raise (ValueError s)
  end.

(** [hex(n)] and [str(n)] *)
Definition hex (n : Z) : string :=
  let digits z := HexadecimalString.NilZero.string_of_uint (N.to_hex_uint (Z.to_N z)) in
  if n <? 0 then "-0x" +:+ digits (- n) else "0x" +:+ digits n.

Definition str_of_int (n : Z) : string :=
  DecimalString.NilZero.string_of_int (Z.to_int n).

(** *** [float(s)] *)

Abbreviation float := spec_float.
Definition prec : Z := 53.
Definition emax : Z := 1024.

(** The binary64 number nearest to [m * 10^e] (ties to even). *)
Definition float_of_decimal (neg : bool) (m e : Z) : float :=
  match m with
  | Zpos p =>
      if 0 <=? e
      then binary_normalize prec emax (if neg then - (m * 10 ^ e) else m * 10 ^ e) 0 neg
      else SFdiv prec emax (S754_finite neg p 0)
                           (S754_finite false (Z.to_pos (10 ^ (- e))) 0)
  | _ => S754_zero neg
  end.

Definition float_of_int (n : Z) : float := float_of_decimal (n <? 0) (Z.abs n) 0.

(** Underscores are accepted only between two digits and are dropped. *)
Fixpoint drop_underscores (prev : ascii) (s : string) : option string :=
  match s with
  | EmptyString => if Ascii.eqb prev "_" then None else Some EmptyString
  | String c s' =>
      if Ascii.eqb c "_"
      then if isdigit prev then drop_underscores c s' else None
      else if Ascii.eqb prev "_" && negb (isdigit c) then None
      else option_map (String c) (drop_underscores c s')
  end.

(** A maximal run of decimal digits: its value, its length and what follows. *)
Fixpoint read_digits (acc : Z) (n : nat) (s : string) : Z * nat * string :=
  match s with
  | String c s' =>
      if isdigit c
      then read_digits (acc * 10 + (Z.of_N (N_of_ascii c) - 48)) (S n) s'
      else (acc, n, s)
  | EmptyString => (acc, n, s)
  end.

Definition read_exponent (s : string) : option Z :=
  match s with
  | EmptyString => Some 0
  | String c s' =>
      if Ascii.eqb (lower c) "e" then
        let '(neg, ds) := split_sign s' in
        match read_digits 0 0 ds with
        | (v, S _, EmptyString) => Some (if neg then - v else v)
        | _ => None
        end
      else None
  end.

Definition float_of_str (s : string) : result float :=
  match drop_underscores "000" s with
  | None => Raise (ValueError s)
  | Some t =>
      let '(neg, body) := split_sign (c_strip t) in
      let word := lower_str body in
      if String.eqb word "inf" || String.eqb word "infinity"
      then Ok (S754_infinity neg)
      else if String.eqb word "nan" then Ok S754_nan
      else
        let '(ip, ni, r1) := read_digits 0 0 body in
        let '(m, nf, r2) :=
          match r1 with
          | String "." r => read_digits ip 0 r
          | _ => (ip, O, r1)
          end in
        match (ni + nf)%nat, read_exponent r2 with
        | S _, Some e => Ok (float_of_decimal neg m (e - Z.of_nat nf))
        | _, _ => Raise (ValueError s)
        end
  end.

End Py.

Import Py.

(** ** Data model *)

(** [datetime] values are opaque clock readings. *)
Definition datetime := Z.

(** The five literals assigned to [CloudShellInstance.status]. *)
Inductive Status := Inactive | Connected | Running | Stopped | Error.

Definition status_str (s : Status) : string :=
  match s with
  | Inactive => "inactive"
  | Connected => "connected"
  | Running => "running"
  | Stopped => "stopped"
  | Error => "error"
  end.

#[global] Instance Status_eq_dec : EqDecision Status.
Proof. solve_decision. Defined.

(** [ssh_client] is never assigned by the coordinator and stays [None]. *)
Record CloudShellInstance := mkInstance {
  name : string;
  project_id : string;
  zone : string;
  username : string;
  status : Status;
  ssh_client : option Empty_set;
  process_id : option string;
  start_range : string;
  end_range : string;
  keys_per_second : float;
  total_keys_checked : Z;
  last_update : datetime;
  errors : list string
}.

Definition set_status (s : Status) (i : CloudShellInstance) :=
  mkInstance (name i) (project_id i) (zone i) (username i) s (ssh_client i)
    (process_id i) (start_range i) (end_range i) (keys_per_second i)
    (total_keys_checked i) (last_update i) (errors i).

Definition set_ranges (s e : string) (i : CloudShellInstance) :=
  mkInstance (name i) (project_id i) (zone i) (username i) (status i)
    (ssh_client i) (process_id i) s e (keys_per_second i)
    (total_keys_checked i) (last_update i) (errors i).

Definition set_keys_per_second (f : float) (i : CloudShellInstance) :=
  mkInstance (name i) (project_id i) (zone i) (username i) (status i)
    (ssh_client i) (process_id i) (start_range i) (end_range i) f
    (total_keys_checked i) (last_update i) (errors i).

Definition set_total_keys_checked (n : Z) (i : CloudShellInstance) :=
  mkInstance (name i) (project_id i) (zone i) (username i) (status i)
    (ssh_client i) (process_id i) (start_range i) (end_range i)
    (keys_per_second i) n (last_update i) (errors i).

Definition set_last_update (t : datetime) (i : CloudShellInstance) :=
  mkInstance (name i) (project_id i) (zone i) (username i) (status i)
    (ssh_client i) (process_id i) (start_range i) (end_range i)
    (keys_per_second i) (total_keys_checked i) t (errors i).

(** [instance.errors.append(msg)] *)
Definition append_error (msg : string) (i : CloudShellInstance) :=
  mkInstance (name i) (project_id i) (zone i) (username i) (status i)
    (ssh_client i) (process_id i) (start_range i) (end_range i)
    (keys_per_second i) (total_keys_checked i) (last_update i)
    (errors i ++ [msg]).

(** The dataclass constructor with its defaults and [__post_init__]. *)
Definition new_instance (name project_id zone username : string) (now : datetime) :=
  mkInstance name project_id zone username Inactive None None "" ""
    (S754_zero false) 0 now [].

Record CoordinatorConfig := mkConfig {
  binary_name : string;
  puzzle_file : string;
  config_template : string;
  total_start_range : string;
  total_end_range : string;
  switch_interval : Z;
  mode : string;
  telegram_bot_token : string;
  telegram_chat_id : string;
  max_instances : Z;
  health_check_interval : Z;
  rebalance_interval : Z
}.

Definition default_config : CoordinatorConfig :=
  mkConfig "bitcoin_puzzle_solver" "puzzle.txt" "config_template.txt"
    "0x20000000000000000" "0x3ffffffffffffffff" 1000000 "smart" "" ""
    50 30 300.

(** ** RangeManager *)

Record RangeManager := mkRangeManager {
  total_start : Z;
  total_end : Z;
  assigned_ranges : gmap string (Z * Z);
  completed_ranges : gset (Z * Z)
}.

(** [RangeManager.__init__] *)
Definition RangeManager_init (total_start total_end : string) : result RangeManager :=
  s ← int_of_str total_start (if startswith total_start "0x" then 16 else 10);
  e ← int_of_str total_end (if startswith total_end "0x" then 16 else 10);
  mret (mkRangeManager s e ∅ ∅).

Section Coordinator.

(** The interpreter's [hash] on strings: salted per process, so nothing is
    known about it beyond being a function. *)
Variable hash : string -> Z.

(** [RangeManager.get_range_for_instance]; [//] and [%] are floor division
    and the modulus with the sign of the divisor, like [Z.div] and
    [Z.modulo], and both raise on a zero divisor. *)
Definition get_range_for_instance (rm : RangeManager) (instance_name : string)
    (num_instances : Z) : result (RangeManager * (string * string)) :=
  if num_instances =? 0 then Raise ZeroDivisionError else
  let total_range := total_end rm - total_start rm in
  let range_size := total_range / num_instances in
  let instance_hash := hash instance_name mod num_instances in
  let start := total_start rm + instance_hash * range_size in
  let end_ := start + range_size - 1 in
  let end_ := if instance_hash =? num_instances - 1 then total_end rm else end_ in
  Ok (mkRangeManager (total_start rm) (total_end rm)
        (<[instance_name := (start, end_)]> (assigned_ranges rm))
        (completed_ranges rm),
      (hex start, hex end_)).

(** [RangeManager.mark_range_completed] *)
Definition mark_range_completed (rm : RangeManager) (instance_name : string) : RangeManager :=
  match assigned_ranges rm !! instance_name with
  | Some r =>
      mkRangeManager (total_start rm) (total_end rm) (assigned_ranges rm)
        ({[ r ]} ∪ completed_ranges rm)
  | None => rm
  end.

(** ** CloudShellCoordinator *)

(** The status queue, the executor and the locks hold nothing the
    coordinator reads back, and are left out. *)
Record CloudShellCoordinator := mkCoordinator {
  config : CoordinatorConfig;
  instances : gmap string CloudShellInstance;
  range_manager : RangeManager;
  running : bool
}.

(** [CloudShellCoordinator.__init__] *)
Definition Coordinator_init (cfg : CoordinatorConfig) : result CloudShellCoordinator :=
  rm ← RangeManager_init (total_start_range cfg) (total_end_range cfg);
  mret (mkCoordinator cfg ∅ rm false).

Definition set_instance (n : string) (i : CloudShellInstance) (c : CloudShellCoordinator) :=
  mkCoordinator (config c) (<[n := i]> (instances c)) (range_manager c) (running c).

Definition set_range_manager (rm : RangeManager) (c : CloudShellCoordinator) :=
  mkCoordinator (config c) (instances c) rm (running c).

(** [add_instance]; [env_user] is [os.getenv('USER')]. *)
Definition add_instance (c : CloudShellCoordinator) (name project_id zone : string)
    (username : option string) (env_user : option string) (now : datetime)
  : CloudShellCoordinator :=
  let username :=
    match username with
    | Some u => u
    | None => default "cloudshell" env_user
    end in
  let instance := new_instance name project_id zone username now in
  set_instance name instance c.

(** What [subprocess.run] does: it returns a completed process, or raises
    an exception [e] whose [str(e)] is [msg]. *)
Record CompletedProcess := mkProcess {
  returncode : Z;
  stdout : string;
  stderr : string
}.

Inductive run_outcome :=
| Completed (p : CompletedProcess)
| Raised (msg : string).

(** [connect_to_instance] *)
Definition connect_to_instance (instance : CloudShellInstance) (r : run_outcome)
  : CloudShellInstance * bool :=
  match r with
  | Completed result =>
      if returncode result =? 0
      then (set_status Connected instance, true)
      else (instance, false)
  | Raised e => (append_error ("Connexion error: " +:+ e) instance, false)
  end.

(** [upload_files_to_instance]: [path_exists] is [os.path.exists] and
    [scp k] the outcome of the [k]-th copy command. *)
Fixpoint upload_loop (path_exists : string -> bool) (scp : nat -> run_outcome)
    (k : nat) (files : list string) : bool :=
  match files with
  | [] => true
  | file_path :: rest =>
      if path_exists file_path then
        match scp k with
        | Completed result =>
            if negb (returncode result =? 0) then false
            else upload_loop path_exists scp (S k) rest
        | Raised _ => false
        end
      else upload_loop path_exists scp (S k) rest
  end.

Definition upload_files_to_instance (c : CloudShellCoordinator)
    (instance : CloudShellInstance) (path_exists : string -> bool)
    (scp : nat -> run_outcome) : bool :=
  upload_loop path_exists scp 0 [binary_name (config c); puzzle_file (config c)].

Definition nl : string := String "010" EmptyString.

(** [create_config_for_instance] *)
Definition create_config_for_instance (c : CloudShellCoordinator)
    (instance : CloudShellInstance)
  : result (CloudShellCoordinator * CloudShellInstance * string) :=
  '(rm, (start_range, end_range)) ←
    get_range_for_instance (range_manager c) (name instance)
      (Z.of_nat (size (instances c)));
  let instance := set_ranges start_range end_range instance in
  let cfg := config c in
  let config_content :=
    "# Configuration générée automatiquement pour " +:+ name instance +:+ nl +:+
    "start=" +:+ start_range +:+ nl +:+
    "end=" +:+ end_range +:+ nl +:+
    "cores=0" +:+ nl +:+
    "mode=" +:+ mode cfg +:+ nl +:+
    "switch_interval=" +:+ str_of_int (switch_interval cfg) +:+ nl +:+
    "subinterval_ratio=0.001" +:+ nl +:+
    "stop_on_find=false" +:+ nl +:+
    "puzzle_file=" +:+ puzzle_file cfg +:+ nl +:+
    "baby_steps=true" +:+ nl +:+
    "giant_steps=true" +:+ nl +:+
    "bloom_filter=false" +:+ nl +:+
    "smart_jump=true" +:+ nl +:+
    "batch_size=10000" +:+ nl +:+
    "checkpoint_interval=10000000" +:+ nl +:+
    "telegram_bot_token=" +:+ telegram_bot_token cfg +:+ nl +:+
    "telegram_chat_id=" +:+ telegram_chat_id cfg +:+ nl in
  mret (set_range_manager rm c, instance, config_content).

(** The loop over the three remote commands of [start_solver_on_instance]:
    [ssh k] is the outcome of the [k]-th one. *)
Fixpoint run_commands (ssh : nat -> run_outcome) (k : nat) (commands : list string) : bool :=
  match commands with
  | [] => true
  | cmd_text :: rest =>
      match ssh k with
      | Completed result =>
          if negb (returncode result =? 0) then false
          else run_commands ssh (S k) rest
      | Raised _ => false
      end
  end.

(** [start_solver_on_instance] *)
Definition start_solver_on_instance (c : CloudShellCoordinator)
    (instance : CloudShellInstance) (ssh : nat -> run_outcome)
  : CloudShellCoordinator * CloudShellInstance * bool :=
  match create_config_for_instance c instance with
  | Raise _ => (c, instance, false)
  | Ok (c, instance, config_content) =>
      let commands :=
        [ "echo '" +:+ config_content +:+ "' > ~/config.txt";
          "chmod +x ~/" +:+ binary_name (config c);
          "nohup ~/" +:+ binary_name (config c) +:+
            " > ~/solver.log 2>&1 & echo $! > ~/solver.pid" ] in
      if run_commands ssh 0 commands
      then (c, set_status Running instance, true)
      else (c, instance, false)
  end.

(** ** Statistics parsing *)

(** [part.split(label)[1].strip().split()[0]] *)
Definition field_token (part label : string) : result string :=
  seg ← index (split part label) 1;
  index (split_ws (strip seg)) 0.

(** The loop over the [|]-separated parts of a matching line.  An exception
    leaves the loop with the assignments made so far: the instance is
    mutated in place, so the result pairs the instance as it is when the
    loop ends with the exception that ended it, if any. *)
Fixpoint parse_parts (instance : CloudShellInstance) (parts : list string)
  : CloudShellInstance * option exn :=
  match parts with
  | [] => (instance, None)
  | part :: rest =>
      if contains "Total:" part then
        match total_str ← field_token part "Total:"; int_of_str total_str 10 with
        | Ok n => parse_parts (set_total_keys_checked n instance) rest
        | Raise e => (instance, Some e)
        end
      else if contains "Vitesse:" part then
        match speed_str ← field_token part "Vitesse:"; float_of_str speed_str with
        | Ok f => parse_parts (set_keys_per_second f instance) rest
        | Raise e => (instance, Some e)
        end
      else parse_parts instance rest
  end.

(** The loop over the lines; it ends ([break]) after the first line that
    holds both labels. *)
Fixpoint parse_lines (instance : CloudShellInstance) (lines : list string)
  : CloudShellInstance * option exn :=
  match lines with
  | [] => (instance, None)
  | line :: rest =>
      if contains "Total:" line && contains "Vitesse:" line
      then parse_parts instance (split line "|")
      else parse_lines instance rest
  end.

(** [parse_statistics].  The second component is the exception caught by the
    [except] clause, whose only effect is a [logger.debug] record. *)
Definition parse_statistics (instance : CloudShellInstance) (log_output : string)
  : CloudShellInstance * option exn :=
  parse_lines instance (split log_output nl).

(** ** Health check *)

(** [check_instance_status]: [ps] is the outcome of the process listing,
    [log] of the log tail (run only when the process is listed). *)
Definition check_instance_status (instance : CloudShellInstance)
    (ps log : run_outcome) (now : datetime) : CloudShellInstance :=
  let failed e instance :=
    append_error ("Status check error: " +:+ e) (set_status Error instance) in
  match ps with
  | Raised e => failed e instance
  | Completed result =>
      if contains "NOT_RUNNING" (stdout result)
      then set_last_update now (set_status Stopped instance)
      else
        let instance := set_status Running instance in
        match log with
        | Raised e => failed e instance
        | Completed log_result =>
            let instance :=
              if negb (String.eqb (stdout log_result) "")
              then fst (parse_statistics instance (stdout log_result))
              else instance in
            set_last_update now instance
        end
  end.

(** ** The control loops, one iteration at a time

    The main thread and the health-check thread interleave; each event is
    one iteration of one of their loops over [self.instances.values()],
    carrying what the remote side answered.  An iteration is taken as one
    atomic step on the shared handles. *)
Inductive event :=
| EvAdd (name project_id zone : string) (username env_user : option string)
    (now : datetime)
| EvStart (n : string) (connect : run_outcome) (path_exists : string -> bool)
    (scp ssh : nat -> run_outcome)
| EvHealth (n : string) (ps log : run_outcome) (now : datetime)
| EvRestart (n : string) (connect : run_outcome) (ssh : nat -> run_outcome).

(** Body of the loop of [start_coordination]. *)
Definition start_instance (c : CloudShellCoordinator) (n : string)
    (connect : run_outcome) (path_exists : string -> bool)
    (scp ssh : nat -> run_outcome) : CloudShellCoordinator :=
  match instances c !! n with
  | None => c
  | Some instance =>
      let '(instance, ok) := connect_to_instance instance connect in
      if ok then
        if upload_files_to_instance c instance path_exists scp then
          let '(c, instance, _) := start_solver_on_instance c instance ssh in
          set_instance n instance c
        else set_instance n instance c
      else set_instance n instance c
  end.

(** Body of the loop of [health_check_loop]. *)
Definition health_check (c : CloudShellCoordinator) (n : string)
    (ps log : run_outcome) (now : datetime) : CloudShellCoordinator :=
  match instances c !! n with
  | None => c
  | Some instance =>
      if decide (status instance <> Inactive)
      then set_instance n (check_instance_status instance ps log now) c
      else c
  end.

(** Body of the loop of [restart_failed_instances]. *)
Definition restart_instance (c : CloudShellCoordinator) (n : string)
    (connect : run_outcome) (ssh : nat -> run_outcome) : CloudShellCoordinator :=
  match instances c !! n with
  | None => c
  | Some instance =>
      if decide (status instance = Stopped \/ status instance = Error) then
        let '(instance, ok) := connect_to_instance instance connect in
        if ok then
          let '(c, instance, _) := start_solver_on_instance c instance ssh in
          set_instance n instance c
        else set_instance n instance c
      else c
  end.

Definition step (c : CloudShellCoordinator) (ev : event) : CloudShellCoordinator :=
  match ev with
  | EvAdd name project_id zone username env_user now =>
      add_instance c name project_id zone username env_user now
  | EvStart n connect path_exists scp ssh =>
      start_instance c n connect path_exists scp ssh
  | EvHealth n ps log now => health_check c n ps log now
  | EvRestart n connect ssh => restart_instance c n connect ssh
  end.

Definition run (c : CloudShellCoordinator) (evs : list event) : CloudShellCoordinator :=
  foldl step c evs.

(** The loops themselves.  [order] lists the keys of [self.instances] in
    iteration order and [answers] gives, for each worker, what the remote
    side answers during its iteration. *)
Definition start_coordination_events (order : list string)
    (answers : string -> run_outcome * (string -> bool)
                         * (nat -> run_outcome) * (nat -> run_outcome))
  : list event :=
  map (fun n => let '(connect, path_exists, scp, ssh) := answers n in
                EvStart n connect path_exists scp ssh) order.

Definition health_check_events (order : list string)
    (answers : string -> run_outcome * run_outcome * datetime) : list event :=
  map (fun n => let '(ps, log, now) := answers n in EvHealth n ps log now) order.

Definition restart_failed_events (order : list string)
    (answers : string -> run_outcome * (nat -> run_outcome)) : list event :=
  map (fun n => let '(connect, ssh) := answers n in EvRestart n connect ssh) order.

(** The [for] loop of [start_coordination]. *)
Definition start_coordination (c : CloudShellCoordinator) order answers :=
  run c (start_coordination_events order answers).

(** One sweep of [health_check_loop]. *)
Definition health_check_loop (c : CloudShellCoordinator) order answers :=
  run c (health_check_events order answers).

(** [restart_failed_instances] *)
Definition restart_failed_instances (c : CloudShellCoordinator) order answers :=
  run c (restart_failed_events order answers).

(** ** Status display *)

(** [l[-k:]] for a positive literal [k]: the last [k] elements, or all of
    [l] when it has fewer. *)
Definition last_n {A} (k : nat) (l : list A) : list A :=
  skipn (length l - k) l.

(** What [display_status] computes before printing: the three totals over
    the running workers and the error lines it shows.  [total_speed] starts
    as the integer [0], which the first addition converts to [0.0]. *)
Record StatusSummary := mkSummary {
  total_speed : float;
  total_keys : Z;
  active_instances : Z
}.

Fixpoint display_totals (acc : StatusSummary) (values : list CloudShellInstance)
  : StatusSummary :=
  match values with
  | [] => acc
  | instance :: rest =>
      if decide (status instance = Running)
      then display_totals
             (mkSummary (SFadd prec emax (total_speed acc) (keys_per_second instance))
                        (total_keys acc + total_keys_checked instance)
                        (active_instances acc + 1))
             rest
      else display_totals acc rest
  end.

(** The second loop of [display_status] and the slice that is printed. *)
Fixpoint recent_errors (values : list CloudShellInstance) : list string :=
  match values with
  | [] => []
  | instance :: rest =>
      match errors instance with
      | [] => recent_errors rest
      | _ => last_n 2 (errors instance) ++ recent_errors rest
      end
  end.

Definition displayed_errors (values : list CloudShellInstance) : list string :=
  last_n 5 (recent_errors values).

(** [display_status], without the rendering; [values] is
    [self.instances.values()] in iteration order. *)
Definition display_status (values : list CloudShellInstance)
  : StatusSummary * list string :=
  (display_totals (mkSummary (S754_zero false) 0 0) values,
   displayed_errors values).

End Coordinator.

(** * Notions used in the statements *)

(** ** Range assignment *)

(** The interval recorded for a worker by one call of the assignment. *)
Definition assigned_interval (hash : string -> Z) (rm : RangeManager)
    (instance_name : string) (num_instances : Z) : option (Z * Z) :=
  match get_range_for_instance hash rm instance_name num_instances with
  | Ok (rm', _) => assigned_ranges rm' !! instance_name
  | Raise _ => None
  end.

(** The bounds the assignment computes for index [i] of [n]. *)
Definition interval_of_index (s e n i : Z) : Z * Z :=
  let size := (e - s) / n in
  (s + i * size, if i =? n - 1 then e else s + i * size + size - 1).

Definition covers (r : Z * Z) (x : Z) : Prop := fst r <= x <= snd r.

(** The range manager the coordinator builds from its default configuration. *)
Definition default_range_manager : RangeManager :=
  mkRangeManager 0x20000000000000000 0x3ffffffffffffffff ∅ ∅.

Definition solver_names : list string :=
  ["puzzle-solver-1"; "puzzle-solver-2"; "puzzle-solver-3"].

(** ** Fleet membership *)

Definition status_of (c : CloudShellCoordinator) (n : string) : option Status :=
  status <$> instances c !! n.

Definition errors_of (c : CloudShellCoordinator) (n : string) : list string :=
  match instances c !! n with
  | Some i => errors i
  | None => []
  end.

Definition empty_coordinator : CloudShellCoordinator :=
  mkCoordinator default_config ∅ default_range_manager false.

(** A handle that has been running and then failed a status check. *)
Definition worn_instance : CloudShellInstance :=
  mkInstance "puzzle-solver-1" "mon-projet-1" "us-central1-a" "cloudshell"
    Error None None "0x20000000000000000" "0x3ffffffffffffffff"
    (float_of_int 4521) 123456789 17 ["Status check error: timed out"].

(** ** Statistics parsing *)

(** Everything but the two metrics is the same in both handles. *)
Definition same_but_metrics (i i' : CloudShellInstance) : Prop :=
  name i' = name i /\ project_id i' = project_id i /\ zone i' = zone i /\
  username i' = username i /\ status i' = status i /\
  ssh_client i' = ssh_client i /\ process_id i' = process_id i /\
  start_range i' = start_range i /\ end_range i' = end_range i /\
  last_update i' = last_update i /\ errors i' = errors i.

(** A line the parser looks into: it holds both labels. *)
Definition is_stats_line (line : string) : bool :=
  contains "Total:" line && contains "Vitesse:" line.

(** The text that follows the first occurrence of [label] in [s]. *)
Fixpoint text_after (label s : string) : option string :=
  match s with
  | EmptyString => if String.prefix label s then Some EmptyString else None
  | String _ s' =>
      if String.prefix label s then Some (drop (String.length label) s)
      else text_after label s'
  end.

(** The first whitespace-delimited token of [s], if it has one. *)
Definition first_token (s : string) : option string := head (split_ws s).

(** The first whitespace-delimited token after the only occurrence of
    [label] in the segment [seg]. *)
Definition token_after_label (label seg : string) : option string :=
  rest ← text_after label seg;
  if contains label rest then None else first_token rest.


Definition fresh_instance : CloudShellInstance :=
  new_instance "puzzle-solver-1" "mon-projet-1" "us-central1-a" "cloudshell" 0.

(** ** Lifecycle *)

(** A remote command that returned with exit status zero. *)
Definition command_ok (r : run_outcome) : bool :=
  match r with
  | Completed p => returncode p =? 0
  | Raised _ => false
  end.

(** All three remote commands of a solver start returned zero. *)
Definition start_ok (ssh : nat -> run_outcome) : bool :=
  command_ok (ssh 0%nat) && command_ok (ssh 1%nat) && command_ok (ssh 2%nat).

(** The event is a fleet-start iteration on worker [n] whose connection
    test succeeds. *)
Definition connect_succeeds (n : string) (ev : event) : bool :=
  match ev with
  | EvStart m connect _ _ _ => String.eqb m n && command_ok connect
  | _ => false
  end.

Definition is_add (ev : event) : bool :=
  match ev with
  | EvAdd _ _ _ _ _ _ => true
  | _ => false
  end.

Definition ranges_of (i : CloudShellInstance) : string * string :=
  (start_range i, end_range i).

(** A hash to evaluate examples with. *)
Definition length_hash (s : string) : Z := Z.of_nat (String.length s).

Definition process (code : Z) (out : string) : run_outcome :=
  Completed (mkProcess code out "").

(** The worker is added, its connection test succeeds, the upload fails. *)
Definition ev_add : event :=
  EvAdd "puzzle-solver-1" "mon-projet-1" "us-central1-a" (Some "cloudshell") None 0.

Definition ev_start_upload_fails : event :=
  EvStart "puzzle-solver-1" (process 0 "Connection test")
    (fun _ => true) (fun _ => process 1 "") (fun _ => process 0 "").

Definition ev_health_not_running : event :=
  EvHealth "puzzle-solver-1" (process 0 "NOT_RUNNING") (process 0 "") 30.

Definition ev_health_raises : event :=
  EvHealth "puzzle-solver-1" (Raised "timed out after 15 seconds") (process 0 "") 30.

Definition connected_coordinator : CloudShellCoordinator :=
  run length_hash empty_coordinator [ev_add; ev_start_upload_fails].

(** The worker an event is about. *)
Definition event_worker (ev : event) : string :=
  match ev with
  | EvAdd n _ _ _ _ _ => n
  | EvStart n _ _ _ _ => n
  | EvHealth n _ _ _ => n
  | EvRestart n _ _ => n
  end.

(** The printed interval [get_range_for_instance] returns for the worker
    name [nm] at the present fleet size of [c]. *)
Definition assignment_of (hash : string -> Z) (c : CloudShellCoordinator)
    (nm : string) : option (string * string) :=
  match get_range_for_instance hash (range_manager c) nm
          (Z.of_nat (size (instances c))) with
  | Ok (_, r) => Some r
  | Raise _ => None
  end.

Definition ev_start_connect_fails : event :=
  EvStart "puzzle-solver-1" (process 255 "")
    (fun _ => true) (fun _ => process 0 "") (fun _ => process 0 "").

Definition ev_start_succeeds : event :=
  EvStart "puzzle-solver-1" (process 0 "Connection test")
    (fun _ => true) (fun _ => process 0 "") (fun _ => process 0 "").

Definition ev_restart_succeeds : event :=
  EvRestart "puzzle-solver-1" (process 0 "Connection test") (fun _ => process 0 "").

Definition running_coordinator : CloudShellCoordinator :=
  run length_hash empty_coordinator [ev_add; ev_start_succeeds].

Definition ev_start_command_fails : event :=
  EvStart "puzzle-solver-1" (process 0 "Connection test")
    (fun _ => true) (fun _ => process 0 "")
    (fun k => if (k =? 2)%nat then process 127 "" else process 0 "").


(** ** Notions used in the further properties *)

(** The number a sequence of hexadecimal digits denotes, read after [acc]. *)
Fixpoint hex_value (d : Hexadecimal.uint) (acc : Z) : Z :=
  match d with
  | Hexadecimal.Nil => acc
  | Hexadecimal.D0 l => hex_value l (acc * 16 + 0)
  | Hexadecimal.D1 l => hex_value l (acc * 16 + 1)
  | Hexadecimal.D2 l => hex_value l (acc * 16 + 2)
  | Hexadecimal.D3 l => hex_value l (acc * 16 + 3)
  | Hexadecimal.D4 l => hex_value l (acc * 16 + 4)
  | Hexadecimal.D5 l => hex_value l (acc * 16 + 5)
  | Hexadecimal.D6 l => hex_value l (acc * 16 + 6)
  | Hexadecimal.D7 l => hex_value l (acc * 16 + 7)
  | Hexadecimal.D8 l => hex_value l (acc * 16 + 8)
  | Hexadecimal.D9 l => hex_value l (acc * 16 + 9)
  | Hexadecimal.Da l => hex_value l (acc * 16 + 10)
  | Hexadecimal.Db l => hex_value l (acc * 16 + 11)
  | Hexadecimal.Dc l => hex_value l (acc * 16 + 12)
  | Hexadecimal.Dd l => hex_value l (acc * 16 + 13)
  | Hexadecimal.De l => hex_value l (acc * 16 + 14)
  | Hexadecimal.Df l => hex_value l (acc * 16 + 15)
  end.

(** No character of [s] is white space. *)
Fixpoint no_space (s : string) : bool :=
  match s with
  | EmptyString => true
  | String c s' => negb (isspace c) && no_space s'
  end.

(** The digits of [hex]. *)
Definition hex_digits (n : Z) : string :=
  HexadecimalString.NilZero.string_of_uint (N.to_hex_uint (Z.to_N n)).

(** Every handle is stored under its own name. *)
Definition well_keyed (c : CloudShellCoordinator) : Prop :=
  forall n i, instances c !! n = Some i -> name i = n.

(** The interval fields of every handle are empty or print the interval the
    range manager has on record for that worker. *)
Definition ranges_recorded (c : CloudShellCoordinator) : Prop :=
  forall n i, instances c !! n = Some i ->
    ranges_of i = ("", "") \/
    exists lo hi,
      assigned_ranges (range_manager c) !! n = Some (lo, hi) /\
      ranges_of i = (hex lo, hex hi).

Definition fleet_consistent (c : CloudShellCoordinator) : Prop :=
  well_keyed c /\ ranges_recorded c.

(** A worker that ran and was then found stopped by a health check. *)
Definition stopped_coordinator : CloudShellCoordinator :=
  run length_hash running_coordinator [ev_health_not_running].

Definition stopped_instance : CloudShellInstance :=
  set_last_update 30
    (set_status Stopped
       (set_ranges "0x20000000000000000" "0x3ffffffffffffffff" fresh_instance)).

Definition added_coordinator : CloudShellCoordinator :=
  step length_hash empty_coordinator ev_add.

Definition unreachable_listing : CompletedProcess :=
  mkProcess 255 "" "ssh: connect to host: Connection timed out".

Definition is_running (i : CloudShellInstance) : bool :=
  bool_decide (status i = Running).

(** The keys checked by a list of workers, added up. *)
Definition sum_keys (l : list CloudShellInstance) : Z :=
  fold_right (fun i acc => total_keys_checked i + acc) 0 l.

(** The two lines of the configuration text that carry the interval. *)
Definition interval_lines (r : string * string) : string :=
  "start=" +:+ fst r +:+ nl +:+ "end=" +:+ snd r +:+ nl.

(** A worker with three errors on its list. *)
Definition noisy_instance : CloudShellInstance :=
  append_error "Status check error: c"
    (append_error "Status check error: b"
       (append_error "Connexion error: a" fresh_instance)).

(** Two coordinators that a loop iteration on worker [n] cannot tell apart:
    same handle for [n], same configuration, fleet size and total interval. *)
Definition same_view (n : string) (c1 c2 : CloudShellCoordinator) : Prop :=
  instances c1 !! n = instances c2 !! n /\
  config c1 = config c2 /\
  size (instances c1) = size (instances c2) /\
  total_start (range_manager c1) = total_start (range_manager c2) /\
  total_end (range_manager c1) = total_end (range_manager c2).

Definition two_worker_coordinator : CloudShellCoordinator :=
  add_instance added_coordinator "puzzle-solver-2" "mon-projet-2"
    "europe-west1-b" (Some "cloudshell") None 0.

(** The first worker cannot be reached, the second one starts. *)
Definition one_fails_answers (n : string)
  : run_outcome * (string -> bool) * (nat -> run_outcome) * (nat -> run_outcome) :=
  (if String.eqb n "puzzle-solver-1" then Raised "timed out" else process 0 "",
   fun _ => true, fun _ => process 0 "", fun _ => process 0 "").
(** * Properties *)

(** ** Range assignment *)



Lemma get_range_for_instance_index hash rm nm n :
  n <> 0 ->
  let r := interval_of_index (total_start rm) (total_end rm) n (hash nm mod n) in
  get_range_for_instance hash rm nm n =
  Ok (mkRangeManager (total_start rm) (total_end rm)
        (<[nm := r]> (assigned_ranges rm)) (completed_ranges rm),
      (hex (fst r), hex (snd r))).
Proof.
  intros Hn. unfold get_range_for_instance, interval_of_index.
  apply Z.eqb_neq in Hn. rewrite Hn. cbn.
  destruct (hash nm mod n =? n - 1); reflexivity.
Qed.

Lemma assigned_interval_index hash rm nm n :
  n <> 0 ->
  assigned_interval hash rm nm n =
  Some (interval_of_index (total_start rm) (total_end rm) n (hash nm mod n)).
Proof.
  intros Hn. unfold assigned_interval.
  rewrite get_range_for_instance_index by assumption. cbn.
  apply lookup_insert_eq.
Qed.

(** Taken over the indices [0 .. n-1] themselves, the computed intervals
    do partition the total interval: every key lies in one of them, and in
    no two. *)
Lemma index_intervals_cover s e n x :
  1 <= n -> s <= x <= e ->
  exists i, 0 <= i < n /\ covers (interval_of_index s e n i) x.
Proof.
  intros Hn Hx. unfold covers, interval_of_index. cbn.
  set (size := (e - s) / n).
  assert (Hsize : 0 <= size) by (apply Z.div_pos; lia).
  assert (Hfit : n * size <= e - s)
    by (apply Z.mul_div_le; lia).
  destruct (Z.eq_dec size 0) as [Hz | Hz].
  - exists (n - 1). rewrite Z.eqb_refl, Hz. lia.
  - destruct (Z_lt_le_dec ((x - s) / size) (n - 1)) as [Hlt | Hge].
    + exists ((x - s) / size).
      assert (Hk : 0 <= (x - s) / size) by (apply Z.div_pos; lia).
      replace ((x - s) / size =? n - 1) with false
        by (symmetry; apply Z.eqb_neq; lia).
      pose proof (Z.mul_div_le (x - s) size ltac:(lia)).
      pose proof (Z.mul_succ_div_gt (x - s) size ltac:(lia)).
      lia.
    + exists (n - 1). rewrite Z.eqb_refl.
      pose proof (Z.mul_div_le (x - s) size ltac:(lia)).
      nia.
Qed.

Lemma index_intervals_disjoint s e n i j x :
  1 <= n -> s <= e -> 0 <= i < n -> 0 <= j < n ->
  covers (interval_of_index s e n i) x ->
  covers (interval_of_index s e n j) x ->
  i = j.
Proof.
  intros Hn Hse Hi Hj. unfold covers, interval_of_index. cbn.
  set (size := (e - s) / n).
  assert (Hsize : 0 <= size) by (apply Z.div_pos; lia).
  intros Hci Hcj.
  destruct (Z.lt_trichotomy i j) as [Hlt | [Heq | Hgt]]; [| exact Heq |].
  - assert (0 <= (j - i - 1) * size) by (apply Z.mul_nonneg_nonneg; lia).
    destruct (Z.eqb_spec i (n - 1)), (Z.eqb_spec j (n - 1)); lia.
  - assert (0 <= (i - j - 1) * size) by (apply Z.mul_nonneg_nonneg; lia).
    destruct (Z.eqb_spec i (n - 1)), (Z.eqb_spec j (n - 1)); lia.
Qed.

(** With the index taken from [hash], two workers whose hashes agree modulo
    the fleet size are given one and the same interval. *)
Lemma same_index_same_interval hash rm n1 n2 n :
  n <> 0 -> hash n1 mod n = hash n2 mod n ->
  assigned_interval hash rm n1 n = assigned_interval hash rm n2 n.
Proof.
  intros Hn Heq. rewrite !assigned_interval_index by assumption.
  now rewrite Heq.
Qed.

Lemma mod2_pigeonhole (a b c : Z) :
  a mod 2 = b mod 2 \/ a mod 2 = c mod 2 \/ b mod 2 = c mod 2.
Proof.
  pose proof (Z.mod_pos_bound a 2 ltac:(lia)).
  pose proof (Z.mod_pos_bound b 2 ltac:(lia)).
  pose proof (Z.mod_pos_bound c 2 ltac:(lia)).
  lia.
Qed.

Lemma default_range_manager_init :
  RangeManager_init (total_start_range default_config)
    (total_end_range default_config) = Ok default_range_manager.
Proof. vm_compute. reflexivity. Qed.

Lemma collide_default hash n1 n2 :
  hash n1 mod 2 = hash n2 mod 2 ->
  exists lo hi x,
    assigned_interval hash default_range_manager n1 2 = Some (lo, hi) /\
    assigned_interval hash default_range_manager n2 2 = Some (lo, hi) /\
    lo <= hi /\
    (total_start default_range_manager <= x <= total_end default_range_manager) /\
    ~ covers (lo, hi) x.
Proof.
  intros Heq.
  rewrite !assigned_interval_index by lia. rewrite <- Heq.
  pose proof (Z.mod_pos_bound (hash n1) 2 ltac:(lia)) as Hb.
  assert (Hc : hash n1 mod 2 = 0 \/ hash n1 mod 2 = 1) by lia.
  destruct Hc as [-> | ->].
  - exists 0x20000000000000000, 0x2fffffffffffffffe, 0x3ffffffffffffffff.
    split; [reflexivity|]. split; [reflexivity|].
    unfold covers; cbn. lia.
  - exists 0x2ffffffffffffffff, 0x3ffffffffffffffff, 0x20000000000000000.
    split; [reflexivity|]. split; [reflexivity|].
    unfold covers; cbn. lia.
Qed.

(** C1 (the code departs from the claim): whatever the interpreter's string
    hash is, two of the three worker names [puzzle-solver-1..3] form a fleet
    of two distinct workers to which the assignment over the default total
    interval gives the very same non-empty sub-interval, so the two
    assignments overlap and part of the total interval is assigned to
    neither. *)
Theorem hash_assignment_overlaps_and_leaves_gap (hash : string -> Z) :
  exists n1 n2 lo hi x,
    n1 ∈ solver_names /\ n2 ∈ solver_names /\ n1 <> n2 /\
    assigned_interval hash default_range_manager n1 2 = Some (lo, hi) /\
    assigned_interval hash default_range_manager n2 2 = Some (lo, hi) /\
    lo <= hi /\
    (total_start default_range_manager <= x <= total_end default_range_manager) /\
    ~ covers (lo, hi) x.
Proof.
  assert (Hin : forall n, In n solver_names -> n ∈ solver_names)
    by (intros n Hn; apply list_elem_of_In; exact Hn).
  destruct (mod2_pigeonhole (hash "puzzle-solver-1") (hash "puzzle-solver-2")
              (hash "puzzle-solver-3")) as [H | [H | H]];
    destruct (collide_default hash _ _ H) as (lo & hi & x & H1 & H2 & H3 & H4 & H5);
    [ exists "puzzle-solver-1", "puzzle-solver-2", lo, hi, x
    | exists "puzzle-solver-1", "puzzle-solver-3", lo, hi, x
    | exists "puzzle-solver-2", "puzzle-solver-3", lo, hi, x ];
    (split; [apply Hin; cbn; tauto |]);
    (split; [apply Hin; cbn; tauto |]);
    (split; [discriminate |]);
    auto.
Qed.

Lemma div_pred_not_multiple (t n : Z) :
  1 <= n -> t mod n <> 0 -> (t - 1) / n = t / n.
Proof.
  intros Hn Hr.
  pose proof (Z.mod_pos_bound t n ltac:(lia)) as Hb.
  pose proof (Z.div_mod t n ltac:(lia)) as Hd.
  symmetry. apply Z.div_unique with (r := t mod n - 1); lia.
Qed.

(** C2: when the number of keys [E-S+1] is not a multiple of the fleet size
    [N], every interval assigned at an index other than the last has exactly
    [floor((E-S+1)/N)] keys, and the interval at the last index ends at [E]
    and has that many keys plus the remainder. *)
Theorem remainder_absorbed_by_last_index (hash : string -> Z)
    (rm : RangeManager) (nm : string) (n : Z) :
  total_start rm <= total_end rm ->
  1 <= n ->
  (total_end rm - total_start rm + 1) mod n <> 0 ->
  exists rm' lo hi,
    get_range_for_instance hash rm nm n = Ok (rm', (hex lo, hex hi)) /\
    assigned_ranges rm' !! nm = Some (lo, hi) /\
    let keys := total_end rm - total_start rm + 1 in
    if hash nm mod n =? n - 1
    then hi = total_end rm /\ hi - lo + 1 = keys / n + keys mod n
    else hi - lo + 1 = keys / n.
Proof.
  intros Hse Hn Hr.
  rewrite get_range_for_instance_index by lia.
  eexists _, _, _. split; [reflexivity |].
  split; [apply lookup_insert_eq |].
  unfold interval_of_index; cbn [fst snd].
  pose proof (div_pred_not_multiple _ n Hn Hr) as Hq.
  replace (total_end rm - total_start rm + 1 - 1)
    with (total_end rm - total_start rm) in Hq by lia.
  rewrite Hq.
  set (keys := total_end rm - total_start rm + 1).
  pose proof (Z.div_mod keys n ltac:(lia)) as Hd.
  destruct (Z.eqb_spec (hash nm mod n) (n - 1)) as [-> | _]; cbn zeta.
  - split; [reflexivity |]. subst keys. lia.
  - lia.
Qed.

Lemma remainder_absorbed_by_last_index_witness :
  let rm := mkRangeManager 0 9 ∅ ∅ in
  exists rm' lo hi,
    get_range_for_instance (fun _ => 2) rm "puzzle-solver-1" 3
      = Ok (rm', (hex lo, hex hi)) /\
    assigned_ranges rm' !! "puzzle-solver-1" = Some (lo, hi) /\
    hi = 9 /\ hi - lo + 1 = 10 / 3 + 10 mod 3.
Proof.
  exact (remainder_absorbed_by_last_index (fun _ => 2) (mkRangeManager 0 9 ∅ ∅)
           "puzzle-solver-1" 3 ltac:(cbn; lia) ltac:(lia)
           ltac:(vm_compute; discriminate)).
Defined.

(** C3: over the total interval [0x20000000000000000, 0x3ffffffffffffffff]
    of the default configuration and a fleet of four, the worker at index 0
    is assigned [0x20000000000000000, 0x27ffffffffffffffe] and the interval
    of the worker at index 3 ends at [0x3ffffffffffffffff]. *)
Theorem four_workers_default_interval (hash : string -> Z)
    (rm : RangeManager) (first last : string) :
  RangeManager_init "0x20000000000000000" "0x3ffffffffffffffff" = Ok rm ->
  hash first mod 4 = 0 ->
  hash last mod 4 = 3 ->
  (exists rm',
     get_range_for_instance hash rm first 4
       = Ok (rm', ("0x20000000000000000", "0x27ffffffffffffffe")) /\
     assigned_ranges rm' !! first
       = Some (0x20000000000000000, 0x27ffffffffffffffe)) /\
  (exists rm' lo,
     get_range_for_instance hash rm last 4
       = Ok (rm', (hex lo, "0x3ffffffffffffffff")) /\
     assigned_ranges rm' !! last = Some (lo, 0x3ffffffffffffffff)).
Proof.
  intros Hrm H0 H3.
  assert (rm = default_range_manager) as ->
    by (pose proof default_range_manager_init as Hd; cbn in Hd; congruence).
  rewrite !get_range_for_instance_index by lia.
  rewrite H0, H3. split.
  - eexists. split; [reflexivity | apply lookup_insert_eq].
  - exists (mkRangeManager 0x20000000000000000 0x3ffffffffffffffff
              (<[last := (0x37ffffffffffffffd, 0x3ffffffffffffffff)]> ∅) ∅),
           0x37ffffffffffffffd.
    split; [reflexivity | apply lookup_insert_eq].
Qed.

Lemma four_workers_default_interval_witness :
  let hash := fun s : string => Z.of_nat (String.length s) in
  (exists rm',
     get_range_for_instance hash default_range_manager "" 4
       = Ok (rm', ("0x20000000000000000", "0x27ffffffffffffffe")) /\
     assigned_ranges rm' !! ""
       = Some (0x20000000000000000, 0x27ffffffffffffffe)) /\
  (exists rm' lo,
     get_range_for_instance hash default_range_manager "abc" 4
       = Ok (rm', (hex lo, "0x3ffffffffffffffff")) /\
     assigned_ranges rm' !! "abc" = Some (lo, 0x3ffffffffffffffff)).
Proof.
  exact (four_workers_default_interval
           (fun s : string => Z.of_nat (String.length s))
           default_range_manager "" "abc"
           ltac:(vm_compute; reflexivity) ltac:(reflexivity) ltac:(reflexivity)).
Defined.

(** ** Fleet membership *)

Lemma Coordinator_init_default :
  Coordinator_init default_config = Ok empty_coordinator.
Proof. vm_compute. reflexivity. Qed.

(** C10: adding a worker under a name the fleet already holds replaces the
    handle stored under that name by a fresh one (inactive, counters at
    zero, no errors), keeps the fleet size and every other handle, and
    cannot fail. *)
Theorem add_instance_replaces_existing (c : CloudShellCoordinator)
    (nm project_id zone : string) (username env_user : option string)
    (now : datetime) (old : CloudShellInstance) :
  instances c !! nm = Some old ->
  let c' := add_instance c nm project_id zone username env_user now in
  exists fresh,
    instances c' !! nm = Some fresh /\
    name fresh = nm /\
    status fresh = Inactive /\
    total_keys_checked fresh = 0 /\
    keys_per_second fresh = S754_zero false /\
    start_range fresh = "" /\ end_range fresh = "" /\
    errors fresh = [] /\
    size (instances c') = size (instances c) /\
    (forall m, m <> nm -> instances c' !! m = instances c !! m) /\
    range_manager c' = range_manager c.
Proof.
  intros Hold c'. subst c'. unfold add_instance, set_instance; cbn.
  eexists. split; [apply lookup_insert_eq |].
  repeat (split; [reflexivity |]).
  split; [apply map_size_insert_Some; eauto |].
  split; [| reflexivity].
  intros m Hm. apply lookup_insert_ne. congruence.
Qed.

Lemma add_instance_replaces_existing_witness :
  let c := set_instance "puzzle-solver-1" worn_instance empty_coordinator in
  let c' := add_instance c "puzzle-solver-1" "mon-projet-2" "europe-west1-b"
              None None 99 in
  exists fresh,
    instances c' !! "puzzle-solver-1" = Some fresh /\
    name fresh = "puzzle-solver-1" /\
    status fresh = Inactive /\
    total_keys_checked fresh = 0 /\
    keys_per_second fresh = S754_zero false /\
    start_range fresh = "" /\ end_range fresh = "" /\
    errors fresh = [] /\
    size (instances c') = size (instances c) /\
    (forall m, m <> "puzzle-solver-1" -> instances c' !! m = instances c !! m) /\
    range_manager c' = range_manager c.
Proof.
  exact (add_instance_replaces_existing
           (set_instance "puzzle-solver-1" worn_instance empty_coordinator)
           "puzzle-solver-1" "mon-projet-2" "europe-west1-b" None None 99
           worn_instance ltac:(vm_compute; reflexivity)).
Defined.

(** ** Statistics parsing *)

Lemma prefix_length p s :
  String.prefix p s = true -> (String.length p <= String.length s)%nat.
Proof.
  revert p. induction s as [| b s IH]; intros [| a p] H; cbn in *;
    try lia; try discriminate.
  destruct (ascii_dec a b); [| discriminate].
  apply IH in H. lia.
Qed.

Lemma drop_0 s : drop 0 s = s.
Proof. destruct s; reflexivity. Qed.

Lemma split_go_skip sep k s :
  (k <= String.length s)%nat -> split_go sep k s = split_go sep 0 (drop k s).
Proof.
  revert k. induction s as [| c s IH]; intros k Hk; cbn in Hk.
  - assert (k = O) as -> by lia. reflexivity.
  - destruct k as [| k]; [reflexivity |].
    cbn [split_go drop]. apply IH. lia.
Qed.

Lemma split_without sep s : contains sep s = false -> split s sep = [s].
Proof.
  unfold split. induction s as [| c s IH]; intros H; [reflexivity |].
  cbn [contains] in H. apply orb_false_iff in H as [Hp Hc].
  cbn [split_go]. rewrite Hp, (IH Hc). reflexivity.
Qed.

Lemma split_at_first sep s rest :
  sep <> EmptyString -> text_after sep s = Some rest ->
  exists pre, split s sep = pre :: split rest sep.
Proof.
  intros Hsep. unfold split. induction s as [| c s IH]; intros H.
  - cbn in H. destruct sep; [congruence | discriminate].
  - cbn [text_after] in H. cbn [split_go].
    destruct (String.prefix sep (String c s)) eqn:Hp.
    + injection H as <-. exists EmptyString.
      pose proof (prefix_length _ _ Hp) as Hl. cbn in Hl.
      destruct sep as [| a sep]; [congruence |]. cbn [String.length] in *.
      rewrite Nat.sub_succ, Nat.sub_0_r.
      rewrite split_go_skip by lia. reflexivity.
    + destruct (IH H) as [pre Hpre]. rewrite Hpre.
      exists (String c pre). reflexivity.
Qed.

Lemma split_ws_go_rstrip s : split_ws_go (rstrip s) = split_ws_go s.
Proof.
  induction s as [| c s IH]; [reflexivity |].
  cbn [rstrip]. destruct (rstrip s) as [| d r] eqn:Hr.
  - cbn [split_ws_go]. rewrite <- IH. cbn.
    destruct (isspace c) eqn:Hc; cbn; rewrite ?Hc; reflexivity.
  - cbn [split_ws_go] in *. rewrite IH. reflexivity.
Qed.

Lemma split_ws_lstrip s : split_ws (lstrip s) = split_ws s.
Proof.
  unfold split_ws. induction s as [| c s IH]; [reflexivity |].
  cbn [lstrip split_ws_go]. destruct (split_ws_go s) as [inword ws] eqn:Hs.
  destruct (isspace c) eqn:Hc.
  - rewrite IH. reflexivity.
  - cbn [split_ws_go]. rewrite Hs, Hc. reflexivity.
Qed.

Lemma split_ws_strip s : split_ws (strip s) = split_ws s.
Proof.
  unfold strip. rewrite <- (split_ws_lstrip s).
  unfold split_ws. now rewrite split_ws_go_rstrip.
Qed.

(** What the code extracts from a segment is the first token after the
    label, when the label occurs in the segment once. *)
Lemma field_token_after_label label seg tok :
  label <> EmptyString ->
  token_after_label label seg = Some tok ->
  field_token seg label = Ok tok.
Proof.
  intros Hl. unfold token_after_label, field_token.
  destruct (text_after label seg) as [rest |] eqn:Hrest; [| discriminate].
  cbn. destruct (contains label rest) eqn:Hc; [discriminate |].
  intros Htok.
  destruct (split_at_first _ _ _ Hl Hrest) as [pre ->].
  rewrite (split_without _ _ Hc). cbn.
  rewrite split_ws_strip. unfold first_token in Htok.
  destruct (split_ws rest); [discriminate |].
  cbn in Htok. injection Htok as ->. reflexivity.
Qed.

Lemma same_but_metrics_refl i : same_but_metrics i i.
Proof. unfold same_but_metrics. tauto. Qed.

Lemma parse_parts_frame parts :
  forall i, same_but_metrics i (fst (parse_parts i parts)).
Proof.
  induction parts as [| part rest IH]; intros i; cbn [parse_parts].
  - apply same_but_metrics_refl.
  - destruct (contains "Total:" part).
    + destruct (_ ≫= _) as [n | e]; [| apply same_but_metrics_refl].
      specialize (IH (set_total_keys_checked n i)).
      unfold same_but_metrics in *. cbn in IH. exact IH.
    + destruct (contains "Vitesse:" part); [| apply IH].
      destruct (_ ≫= _) as [f | e]; [| apply same_but_metrics_refl].
      specialize (IH (set_keys_per_second f i)).
      unfold same_but_metrics in *. cbn in IH. exact IH.
Qed.

Lemma parse_lines_frame lines i :
  same_but_metrics i (fst (parse_lines i lines)).
Proof.
  induction lines as [| line rest IH]; cbn [parse_lines].
  - apply same_but_metrics_refl.
  - destruct (_ && _); [apply parse_parts_frame | apply IH].
Qed.

Lemma parse_statistics_frame i log :
  same_but_metrics i (fst (parse_statistics i log)).
Proof. apply parse_lines_frame. Qed.


Lemma parse_lines_first_stats_line before line after i :
  forallb (fun l => negb (is_stats_line l)) before = true ->
  is_stats_line line = true ->
  parse_lines i (before ++ line :: after)%list = parse_parts i (split line "|").
Proof.
  intros Hb Hl. induction before as [| l before IH]; cbn [app parse_lines].
  - unfold is_stats_line in Hl. rewrite Hl. reflexivity.
  - cbn [forallb] in Hb. apply andb_true_iff in Hb as [Hn Hb].
    unfold is_stats_line in Hn. apply negb_true_iff in Hn. rewrite Hn.
    apply IH, Hb.
Qed.

(** When every segment holding a label yields the same value for it, the
    loop over the segments ends normally with those values stored. *)
Lemma parse_parts_fields n f parts :
  (forall p, In p parts -> contains "Total:" p = true ->
     (total_str ← field_token p "Total:"; int_of_str total_str 10) = Ok n) ->
  (forall p, In p parts -> contains "Total:" p = false ->
     contains "Vitesse:" p = true ->
     (speed_str ← field_token p "Vitesse:"; float_of_str speed_str) = Ok f) ->
  forall i,
    parse_parts i parts =
    (let i1 := if existsb (contains "Total:") parts
               then set_total_keys_checked n i else i in
     if existsb (fun p => negb (contains "Total:" p) && contains "Vitesse:" p) parts
     then set_keys_per_second f i1 else i1, None).
Proof.
  induction parts as [| part rest IH]; intros HT HV i; [reflexivity |].
  cbn [parse_parts existsb].
  assert (HT' : forall p, In p rest -> contains "Total:" p = true ->
     (total_str ← field_token p "Total:"; int_of_str total_str 10) = Ok n)
    by (intros p Hp; apply HT; right; exact Hp).
  assert (HV' : forall p, In p rest -> contains "Total:" p = false ->
     contains "Vitesse:" p = true ->
     (speed_str ← field_token p "Vitesse:"; float_of_str speed_str) = Ok f)
    by (intros p Hp; apply HV; right; exact Hp).
  specialize (IH HT' HV').
  destruct (contains "Total:" part) eqn:Ht.
  - rewrite (HT part (or_introl eq_refl) Ht), IH. cbn.
    destruct (existsb (contains "Total:") rest), (existsb _ rest); reflexivity.
  - destruct (contains "Vitesse:" part) eqn:Hv.
    + rewrite (HV part (or_introl eq_refl) Ht Hv), IH. cbn.
      destruct (existsb (contains "Total:") rest), (existsb _ rest); reflexivity.
    + rewrite IH. reflexivity.
Qed.

Lemma filter_singleton_In {A} (P : A -> bool) l x y :
  List.filter P l = [x] -> In y l -> P y = true -> y = x.
Proof.
  intros Hf Hy Hp.
  assert (Hin : In y (List.filter P l)) by (apply filter_In; auto).
  rewrite Hf in Hin. destruct Hin as [-> | []]. reflexivity.
Qed.

Lemma filter_singleton_existsb {A} (P : A -> bool) l x :
  List.filter P l = [x] -> existsb P l = true.
Proof.
  intros Hf. apply existsb_exists. exists x.
  apply filter_In. rewrite Hf. left. reflexivity.
Qed.

(** C7: in a log tail whose first line holding both labels has one
    [|]-separated segment with [Total:] and another one with [Vitesse:],
    the parser stores the first whitespace-delimited token after [Total:],
    read as an integer, as the keys-checked counter and the first such token
    after [Vitesse:], read as a float, as the throughput; the lines before
    it are skipped and the lines after it are not looked at.  On the line
    [... | Total: 123456789 | Vitesse: 4521 k/s] this gives 123456789 and
    4521.0, as the instance that follows the theorem shows. *)
Theorem parse_statistics_first_stats_line (i : CloudShellInstance)
    (log line segT segV tokT tokV : string) (before after : list string)
    (n : Z) (f : float) :
  split log nl = (before ++ line :: after)%list ->
  forallb (fun l => negb (is_stats_line l)) before = true ->
  is_stats_line line = true ->
  List.filter (contains "Total:") (split line "|") = [segT] ->
  List.filter (contains "Vitesse:") (split line "|") = [segV] ->
  contains "Total:" segV = false ->
  token_after_label "Total:" segT = Some tokT ->
  token_after_label "Vitesse:" segV = Some tokV ->
  int_of_str tokT 10 = Ok n ->
  float_of_str tokV = Ok f ->
  parse_statistics i log
  = (set_keys_per_second f (set_total_keys_checked n i), None).
Proof.
  intros Hlog Hbefore Hline HfT HfV HTV HtokT HtokV Hn Hf.
  unfold parse_statistics. rewrite Hlog.
  rewrite parse_lines_first_stats_line by assumption.
  rewrite (parse_parts_fields n f).
  - rewrite (filter_singleton_existsb _ _ _ HfT).
    assert (He : existsb (fun p => negb (contains "Total:" p)
                                   && contains "Vitesse:" p)
                   (split line "|") = true).
    { apply existsb_exists. exists segV. split.
      - assert (Hin : In segV (List.filter (contains "Vitesse:") (split line "|")))
          by (rewrite HfV; left; reflexivity).
        apply filter_In in Hin. tauto.
      - rewrite HTV. cbn.
        assert (Hin : In segV (List.filter (contains "Vitesse:") (split line "|")))
          by (rewrite HfV; left; reflexivity).
        apply filter_In in Hin. tauto. }
    rewrite He. reflexivity.
  - intros p Hp Hc.
    rewrite (filter_singleton_In _ _ _ _ HfT Hp Hc).
    rewrite (field_token_after_label "Total:" segT tokT ltac:(discriminate) HtokT).
    exact Hn.
  - intros p Hp _ Hc.
    rewrite (filter_singleton_In _ _ _ _ HfV Hp Hc).
    rewrite (field_token_after_label "Vitesse:" segV tokV ltac:(discriminate) HtokV).
    exact Hf.
Qed.

Lemma parse_statistics_first_stats_line_witness :
  parse_statistics fresh_instance "... | Total: 123456789 | Vitesse: 4521 k/s"
  = (set_keys_per_second (S754_finite false 4970892069175296 (-40))
       (set_total_keys_checked 123456789 fresh_instance), None)
  /\ 4970892069175296 = 4521 * 2 ^ 40.
Proof.
  split; [| reflexivity].
  exact (parse_statistics_first_stats_line fresh_instance
           "... | Total: 123456789 | Vitesse: 4521 k/s"
           "... | Total: 123456789 | Vitesse: 4521 k/s"
           " Total: 123456789 " " Vitesse: 4521 k/s" "123456789" "4521"
           [] [] 123456789 (S754_finite false 4970892069175296 (-40))
           ltac:(vm_compute; reflexivity) ltac:(reflexivity)
           ltac:(vm_compute; reflexivity) ltac:(vm_compute; reflexivity)
           ltac:(vm_compute; reflexivity) ltac:(vm_compute; reflexivity)
           ltac:(vm_compute; reflexivity) ltac:(vm_compute; reflexivity)
           ltac:(vm_compute; reflexivity) ltac:(vm_compute; reflexivity)).
Defined.

(** A later status line is not looked at, and lines without both labels
    before the first status line are skipped. *)
Example parse_statistics_three_lines :
  parse_statistics fresh_instance
    ("Total: 7" +:+ nl +:+
     "[Stats] Total: 123456789 | Vitesse: 4521 k/s" +:+ nl +:+
     "[Stats] Total: 999999999 | Vitesse: 1 k/s")
  = (set_keys_per_second (float_of_int 4521)
       (set_total_keys_checked 123456789 fresh_instance), None).
Proof. vm_compute. reflexivity. Qed.


(** The same with a throughput token that is not a number. *)
Example malformed_speed_updates_counter :
  parse_statistics fresh_instance "[Stats] Total: 5 | Vitesse: n/a"
  = (set_total_keys_checked 5 fresh_instance, Some (ValueError "n/a")).
Proof. vm_compute. reflexivity. Qed.







(** ** Lifecycle *)

Section Lifecycle.

Variable hash : string -> Z.

Lemma connect_to_instance_name i r : name (fst (connect_to_instance i r)) = name i.
Proof. destruct r as [p | e]; cbn; [destruct (_ =? _) |]; reflexivity. Qed.

Lemma connect_to_instance_ranges i r :
  ranges_of (fst (connect_to_instance i r)) = ranges_of i.
Proof. destruct r as [p | e]; cbn; [destruct (_ =? _) |]; reflexivity. Qed.

Lemma connect_to_instance_ok i r :
  snd (connect_to_instance i r) = command_ok r.
Proof. destruct r as [p | e]; cbn; [destruct (_ =? _) |]; reflexivity. Qed.

Lemma connect_to_instance_status i r :
  status (fst (connect_to_instance i r))
  = if command_ok r then Connected else status i.
Proof. destruct r as [p | e]; cbn; [destruct (_ =? _) |]; reflexivity. Qed.

Lemma connect_to_instance_errors i r :
  errors (fst (connect_to_instance i r))
  = match r with
    | Completed _ => errors i
    | Raised e => (errors i ++ ["Connexion error: " +:+ e])%list
    end.
Proof. destruct r as [p | e]; cbn; [destruct (_ =? _) |]; reflexivity. Qed.

Lemma check_instance_status_name i ps log now :
  name (check_instance_status i ps log now) = name i.
Proof.
  unfold check_instance_status.
  destruct ps as [p | e]; [| reflexivity].
  destruct (contains _ _); [reflexivity |].
  destruct log as [lp | e]; [| reflexivity].
  destruct (negb _); [| reflexivity]. cbn.
  apply (parse_statistics_frame (set_status Running i)).
Qed.

Lemma check_instance_status_ranges i ps log now :
  ranges_of (check_instance_status i ps log now) = ranges_of i.
Proof.
  unfold check_instance_status, ranges_of.
  destruct ps as [p | e]; [| reflexivity].
  destruct (contains _ _); [reflexivity |].
  destruct log as [lp | e]; [| reflexivity].
  destruct (negb _); [| reflexivity]. cbn.
  destruct (parse_statistics_frame (set_status Running i) (stdout lp))
    as (_ & _ & _ & _ & _ & _ & _ & Hs & He & _).
  cbn in Hs, He. now rewrite Hs, He.
Qed.

Lemma check_instance_status_status i ps log now :
  status (check_instance_status i ps log now)
  = match ps with
    | Raised _ => Error
    | Completed p =>
        if contains "NOT_RUNNING" (stdout p) then Stopped
        else match log with Raised _ => Error | Completed _ => Running end
    end.
Proof.
  unfold check_instance_status.
  destruct ps as [p | e]; [| reflexivity].
  destruct (contains _ _); [reflexivity |].
  destruct log as [lp | e]; [| reflexivity].
  destruct (negb _); [| reflexivity]. cbn.
  apply (parse_statistics_frame (set_status Running i)).
Qed.

Lemma check_instance_status_errors i ps log now :
  errors (check_instance_status i ps log now)
  = match ps with
    | Raised e => (errors i ++ ["Status check error: " +:+ e])%list
    | Completed p =>
        if contains "NOT_RUNNING" (stdout p) then errors i
        else match log with
             | Raised e => (errors i ++ ["Status check error: " +:+ e])%list
             | Completed _ => errors i
             end
    end.
Proof.
  unfold check_instance_status.
  destruct ps as [p | e]; [| reflexivity].
  destruct (contains _ _); [reflexivity |].
  destruct log as [lp | e]; [| reflexivity].
  destruct (negb _); [| reflexivity]. cbn.
  apply (parse_statistics_frame (set_status Running i)).
Qed.

Lemma run_commands_three ssh a b c :
  run_commands ssh 0 [a; b; c] = start_ok ssh.
Proof.
  unfold start_ok, command_ok. cbn.
  destruct (ssh 0%nat) as [p0 | ]; [| reflexivity].
  destruct (returncode p0 =? 0); [| reflexivity]. cbn.
  destruct (ssh 1%nat) as [p1 | ]; [| reflexivity].
  destruct (returncode p1 =? 0); [| reflexivity]. cbn.
  destruct (ssh 2%nat) as [p2 | ]; [| reflexivity].
  destruct (returncode p2 =? 0); reflexivity.
Qed.

(** What a solver start does to a worker of a non-empty fleet: the interval
    for its name and the present fleet size is computed, recorded and
    written to the handle, and the status becomes running when the three
    commands succeed. *)
Lemma start_solver_on_instance_eq c i ssh :
  size (instances c) <> 0%nat ->
  let n := Z.of_nat (size (instances c)) in
  let rm := range_manager c in
  let r := interval_of_index (total_start rm) (total_end rm) n (hash (name i) mod n) in
  let i' := set_ranges (hex (fst r)) (hex (snd r)) i in
  start_solver_on_instance hash c i ssh =
  (set_range_manager
     (mkRangeManager (total_start rm) (total_end rm)
        (<[name i := r]> (assigned_ranges rm)) (completed_ranges rm)) c,
   if start_ok ssh then set_status Running i' else i',
   start_ok ssh).
Proof.
  intros Hsize n rm r i'.
  unfold start_solver_on_instance, create_config_for_instance.
  rewrite get_range_for_instance_index by lia.
  cbn [mbind result_bind mret result_ret].
  rewrite run_commands_three. destruct (start_ok ssh); reflexivity.
Qed.

Lemma lookup_size_nonzero (c : CloudShellCoordinator) n i :
  instances c !! n = Some i -> size (instances c) <> 0%nat.
Proof.
  intros H Hz. apply map_size_empty_iff in Hz. rewrite Hz in H.
  rewrite lookup_empty in H. discriminate.
Qed.

(** The three loop bodies, for a worker that is in the fleet. *)
Lemma start_instance_eq c n i connect path_exists scp ssh :
  instances c !! n = Some i ->
  start_instance hash c n connect path_exists scp ssh =
  let i1 := fst (connect_to_instance i connect) in
  if command_ok connect && upload_files_to_instance c i1 path_exists scp
  then let '(c', i', _) := start_solver_on_instance hash c i1 ssh in
       set_instance n i' c'
  else set_instance n i1 c.
Proof.
  intros Hi. unfold start_instance. rewrite Hi.
  rewrite (surjective_pairing (connect_to_instance i connect)).
  rewrite connect_to_instance_ok.
  destruct (command_ok connect); [| reflexivity]. cbn [andb].
  destruct (upload_files_to_instance _ _ _ _); reflexivity.
Qed.

Lemma restart_instance_eq c n i connect ssh :
  instances c !! n = Some i ->
  restart_instance hash c n connect ssh =
  if decide (status i = Stopped \/ status i = Error) then
    let i1 := fst (connect_to_instance i connect) in
    if command_ok connect
    then let '(c', i', _) := start_solver_on_instance hash c i1 ssh in
         set_instance n i' c'
    else set_instance n i1 c
  else c.
Proof.
  intros Hi. unfold restart_instance. rewrite Hi.
  destruct (decide _); [| reflexivity].
  rewrite (surjective_pairing (connect_to_instance i connect)).
  rewrite connect_to_instance_ok.
  destruct (command_ok connect); reflexivity.
Qed.

Lemma health_check_eq c n i ps log now :
  instances c !! n = Some i ->
  health_check c n ps log now =
  if decide (status i <> Inactive)
  then set_instance n (check_instance_status i ps log now) c
  else c.
Proof. intros Hi. unfold health_check. rewrite Hi. reflexivity. Qed.

(** One step changes at most the handle of the worker the event is about. *)
Lemma step_other c ev n :
  event_worker ev <> n -> instances (step hash c ev) !! n = instances c !! n.
Proof.
  intros Hne. destruct ev as [m ? ? ? ? ? | m ? ? ? ? | m ? ? ? | m ? ?];
    cbn [step event_worker] in *.
  - unfold add_instance, set_instance; cbn. now apply lookup_insert_ne.
  - destruct (instances c !! m) as [i |] eqn:Hi;
      [| unfold start_instance; now rewrite Hi].
    rewrite (start_instance_eq _ _ _ _ _ _ _ Hi). cbn zeta.
    destruct (_ && _).
    + rewrite start_solver_on_instance_eq by eauto using lookup_size_nonzero.
      cbn. now apply lookup_insert_ne.
    + cbn. now apply lookup_insert_ne.
  - destruct (instances c !! m) as [i |] eqn:Hi;
      [| unfold health_check; now rewrite Hi].
    rewrite (health_check_eq _ _ _ _ _ _ Hi).
    destruct (decide _); [| reflexivity]. cbn. now apply lookup_insert_ne.
  - destruct (instances c !! m) as [i |] eqn:Hi;
      [| unfold restart_instance; now rewrite Hi].
    rewrite (restart_instance_eq _ _ _ _ _ Hi). cbn zeta.
    destruct (decide _); [| reflexivity].
    destruct (command_ok _).
    + rewrite start_solver_on_instance_eq by eauto using lookup_size_nonzero.
      cbn. now apply lookup_insert_ne.
    + cbn. now apply lookup_insert_ne.
Qed.

Lemma assignment_of_eq c nm :
  assignment_of hash c nm =
  if decide (size (instances c) = 0%nat) then None
  else
    let rm := range_manager c in
    let n := Z.of_nat (size (instances c)) in
    let r := interval_of_index (total_start rm) (total_end rm) n (hash nm mod n) in
    Some (hex (fst r), hex (snd r)).
Proof.
  unfold assignment_of. destruct (decide _) as [Hz | Hz].
  - rewrite Hz. reflexivity.
  - rewrite get_range_for_instance_index by lia. reflexivity.
Qed.

Lemma connect_to_instance_appends i r :
  exists more, errors (fst (connect_to_instance i r)) = (errors i ++ more)%list
               /\ (length more <= 1)%nat.
Proof.
  rewrite connect_to_instance_errors. destruct r.
  - exists []. rewrite app_nil_r. cbn. split; [reflexivity | lia].
  - eexists. split; [reflexivity | cbn; lia].
Qed.

Lemma check_instance_status_appends i ps log now :
  exists more, errors (check_instance_status i ps log now) = (errors i ++ more)%list
               /\ (length more <= 1)%nat.
Proof.
  rewrite check_instance_status_errors.
  assert (H0 : exists more, errors i = (errors i ++ more)%list /\ (length more <= 1)%nat)
    by (exists []; rewrite app_nil_r; cbn; split; [reflexivity | lia]).
  destruct ps as [p | e]; [| eexists; split; [reflexivity | cbn; lia]].
  destruct (contains _ _); [exact H0 |].
  destruct log; [exact H0 | eexists; split; [reflexivity | cbn; lia]].
Qed.

(** What one step other than an addition does to the handle of the worker
    it is about: the name stays, the interval fields stay or become the
    assignment for the present fleet, and the error list gains at most one
    entry at its end. *)
Lemma step_target c ev n i :
  instances c !! n = Some i -> event_worker ev = n -> is_add ev = false ->
  exists i',
    instances (step hash c ev) !! n = Some i' /\
    name i' = name i /\
    (ranges_of i' = ranges_of i \/ Some (ranges_of i') = assignment_of hash c (name i)) /\
    exists more, errors i' = (errors i ++ more)%list /\ (length more <= 1)%nat.
Proof.
  intros Hi Hw Hadd.
  assert (Hsame : exists i', instances c !! n = Some i' /\ name i' = name i /\
            (ranges_of i' = ranges_of i \/ Some (ranges_of i') = assignment_of hash c (name i)) /\
            exists more, errors i' = (errors i ++ more)%list /\ (length more <= 1)%nat).
  { exists i. repeat split; auto. exists []. rewrite app_nil_r.
    cbn. split; [reflexivity | lia]. }
  assert (Hconn : forall r, exists i', <[n := fst (connect_to_instance i r)]> (instances c) !! n = Some i' /\
            name i' = name i /\
            (ranges_of i' = ranges_of i \/ Some (ranges_of i') = assignment_of hash c (name i)) /\
            exists more, errors i' = (errors i ++ more)%list /\ (length more <= 1)%nat).
  { intros r. eexists. split; [apply lookup_insert_eq |].
    split; [apply connect_to_instance_name |].
    split; [left; apply connect_to_instance_ranges |].
    apply connect_to_instance_appends. }
  assert (Hstart : forall r ssh,
            let '(c', i', _) := start_solver_on_instance hash c (fst (connect_to_instance i r)) ssh in
            exists i'', instances (set_instance n i' c') !! n = Some i'' /\
            name i'' = name i /\
            (ranges_of i'' = ranges_of i \/ Some (ranges_of i'') = assignment_of hash c (name i)) /\
            exists more, errors i'' = (errors i ++ more)%list /\ (length more <= 1)%nat).
  { intros r ssh.
    rewrite start_solver_on_instance_eq by eauto using lookup_size_nonzero.
    eexists. split; [apply lookup_insert_eq |].
    rewrite connect_to_instance_name.
    assert (Ha := assignment_of_eq c (name i)).
    destruct (decide _) as [Hz | _];
      [destruct (lookup_size_nonzero c n i Hi Hz) |].
    destruct (start_ok ssh); cbn;
      (split; [apply connect_to_instance_name |]);
      (split; [right; symmetry; exact Ha |]);
      apply connect_to_instance_appends. }
  destruct ev as [m ? ? ? ? ? | m connect pe scp ssh | m ps log now | m connect ssh];
    cbn [step event_worker is_add] in *; [discriminate | subst m ..].
  - rewrite (start_instance_eq _ _ _ _ _ _ _ Hi). cbn zeta.
    destruct (_ && _); [| apply Hconn].
    specialize (Hstart connect ssh).
    destruct (start_solver_on_instance hash c _ ssh) as [[c' i'] ok].
    exact Hstart.
  - rewrite (health_check_eq _ _ _ _ _ _ Hi).
    destruct (decide _); [| exact Hsame].
    eexists. split; [apply lookup_insert_eq |].
    split; [apply check_instance_status_name |].
    split; [left; apply check_instance_status_ranges |].
    apply check_instance_status_appends.
  - rewrite (restart_instance_eq _ _ _ _ _ Hi). cbn zeta.
    destruct (decide _); [| exact Hsame].
    destruct (command_ok _); [| apply Hconn].
    specialize (Hstart connect ssh).
    destruct (start_solver_on_instance hash c _ ssh) as [[c' i'] ok].
    exact Hstart.
Qed.

(** Steps other than additions keep the fleet size; every step keeps the
    total interval. *)
Lemma step_fleet c ev :
  total_start (range_manager (step hash c ev)) = total_start (range_manager c) /\
  total_end (range_manager (step hash c ev)) = total_end (range_manager c) /\
  (is_add ev = false -> size (instances (step hash c ev)) = size (instances c)).
Proof.
  assert (Hsize : forall n i i', instances c !! n = Some i ->
            size (<[n := i']> (instances c)) = size (instances c))
    by (intros; apply map_size_insert_Some; eauto).
  destruct ev as [m ? ? ? ? ? | m connect pe scp ssh | m ps log now | m connect ssh];
    cbn [step is_add].
  - repeat split; discriminate.
  - destruct (instances c !! m) as [i |] eqn:Hi;
      [| unfold start_instance; rewrite Hi; auto].
    rewrite (start_instance_eq _ _ _ _ _ _ _ Hi). cbn zeta.
    destruct (_ && _).
    + rewrite start_solver_on_instance_eq by eauto using lookup_size_nonzero.
      cbn. eauto.
    + cbn. eauto.
  - destruct (instances c !! m) as [i |] eqn:Hi;
      [| unfold health_check; rewrite Hi; auto].
    rewrite (health_check_eq _ _ _ _ _ _ Hi).
    destruct (decide _); cbn; eauto.
  - destruct (instances c !! m) as [i |] eqn:Hi;
      [| unfold restart_instance; rewrite Hi; auto].
    rewrite (restart_instance_eq _ _ _ _ _ Hi). cbn zeta.
    destruct (decide _); [| auto].
    destruct (command_ok _).
    + rewrite start_solver_on_instance_eq by eauto using lookup_size_nonzero.
      cbn. eauto.
    + cbn. eauto.
Qed.

End Lifecycle.

Section LifecycleClaims.

Variable hash : string -> Z.

Lemma step_absent c ev n :
  instances c !! n = None -> is_add ev = false ->
  instances (step hash c ev) !! n = None.
Proof.
  intros Hn Hadd.
  destruct (decide (event_worker ev = n)) as [Hw | Hw];
    [| now rewrite step_other].
  destruct ev; cbn [step event_worker is_add] in *; try discriminate; subst;
    unfold start_instance, health_check, restart_instance; now rewrite Hn.
Qed.

Lemma step_errors_of c ev n :
  is_add ev = false ->
  exists more, errors_of (step hash c ev) n = (errors_of c n ++ more)%list
               /\ (length more <= 1)%nat.
Proof.
  intros Hadd. unfold errors_of.
  destruct (decide (event_worker ev = n)) as [Hw | Hw].
  - destruct (instances c !! n) as [i |] eqn:Hi.
    + destruct (step_target hash c ev n i Hi Hw Hadd) as (i' & -> & _ & _ & H).
      exact H.
    + rewrite (step_absent c ev n Hi Hadd). exists []. cbn. split; [reflexivity | lia].
  - rewrite step_other by assumption. exists [].
    rewrite app_nil_r. cbn. split; [reflexivity | lia].
Qed.

Lemma run_cons c ev evs : run hash c (ev :: evs) = run hash (step hash c ev) evs.
Proof. reflexivity. Qed.

(** C9, amended: the error list of a worker is not capped.  While no worker
    is added to the fleet it only grows at its end, by at most one entry per
    loop iteration. *)
Theorem error_log_grows_by_appending (c : CloudShellCoordinator)
    (evs : list event) (n : string) :
  forallb (fun ev => negb (is_add ev)) evs = true ->
  exists more,
    errors_of (run hash c evs) n = (errors_of c n ++ more)%list /\
    (length more <= length evs)%nat.
Proof.
  revert c. induction evs as [| ev evs IH]; intros c Hevs.
  - exists []. rewrite app_nil_r. cbn. split; [reflexivity | lia].
  - cbn [forallb] in Hevs. apply andb_true_iff in Hevs as [Hev Hevs].
    apply negb_true_iff in Hev. rewrite run_cons.
    destruct (IH (step hash c ev) Hevs) as (more2 & -> & Hl2).
    destruct (step_errors_of c ev n Hev) as (more1 & -> & Hl1).
    exists (more1 ++ more2)%list. rewrite app_assoc.
    split; [reflexivity |]. rewrite length_app. cbn. lia.
Qed.

(** As long as no connection test of a worker has succeeded, the worker
    keeps the status [inactive]. *)
Lemma step_keeps_inactive c ev n :
  status_of c n = None \/ status_of c n = Some Inactive ->
  connect_succeeds n ev = false ->
  status_of (step hash c ev) n = None \/ status_of (step hash c ev) n = Some Inactive.
Proof.
  intros Hs Hc. unfold status_of in *.
  destruct (decide (event_worker ev = n)) as [Hw | Hw];
    [| now rewrite step_other].
  destruct ev as [m ? ? ? ? ? | m connect pe scp ssh | m ps log now | m connect ssh];
    cbn [step event_worker connect_succeeds] in *; subst m.
  - right. unfold add_instance, set_instance; cbn.
    now rewrite lookup_insert_eq.
  - destruct (instances c !! n) as [i |] eqn:Hi;
      [| unfold start_instance; rewrite Hi; rewrite Hi; now left].
    rewrite (start_instance_eq _ _ _ _ _ _ _ _ Hi). cbn zeta.
    rewrite String.eqb_refl in Hc. cbn in Hc. rewrite Hc. cbn.
    rewrite lookup_insert_eq. cbn.
    rewrite connect_to_instance_status, Hc. exact Hs.
  - destruct (instances c !! n) as [i |] eqn:Hi;
      [| unfold health_check; rewrite Hi; rewrite Hi; now left].
    rewrite (health_check_eq _ _ _ _ _ _ Hi).
    destruct Hs as [Hs | Hs]; [discriminate |]. cbn in Hs.
    destruct (decide _) as [Hd | Hd]; [congruence |].
    rewrite Hi. now right.
  - destruct (instances c !! n) as [i |] eqn:Hi;
      [| unfold restart_instance; rewrite Hi; rewrite Hi; now left].
    rewrite (restart_instance_eq _ _ _ _ _ _ Hi). cbn zeta.
    destruct Hs as [Hs | Hs]; [discriminate |]. cbn in Hs.
    destruct (decide _) as [[Hd | Hd] | Hd]; try congruence.
    rewrite Hi. now right.
Qed.

Lemma start_solver_status c i ssh :
  size (instances c) <> 0%nat ->
  status (snd (fst (start_solver_on_instance hash c i ssh)))
  = if start_ok ssh then Running else status i.
Proof.
  intros Hs. rewrite start_solver_on_instance_eq by assumption.
  cbn. destruct (start_ok ssh); reflexivity.
Qed.

(** A step gives a worker the status [stopped] only if it is a health
    check of that worker, made while its status is not [inactive], whose
    process listing holds [NOT_RUNNING]. *)
Lemma step_stops_only_by_health_check c ev n :
  status_of c n <> Some Stopped ->
  status_of (step hash c ev) n = Some Stopped ->
  exists p log now s,
    ev = EvHealth n (Completed p) log now /\
    contains "NOT_RUNNING" (stdout p) = true /\
    status_of c n = Some s /\ s <> Inactive.
Proof.
  intros Hbefore Hafter. unfold status_of in *.
  destruct (decide (event_worker ev = n)) as [Hw | Hw];
    [| rewrite step_other in Hafter by assumption; contradiction].
  destruct ev as [m ? ? ? ? ? | m connect pe scp ssh | m ps log now | m connect ssh];
    cbn [step event_worker] in *; subst m.
  - unfold add_instance, set_instance in Hafter; cbn in Hafter.
    rewrite lookup_insert_eq in Hafter. discriminate.
  - destruct (instances c !! n) as [i |] eqn:Hi;
      [| unfold start_instance in Hafter; rewrite Hi in Hafter; congruence].
    rewrite (start_instance_eq _ _ _ _ _ _ _ _ Hi) in Hafter. cbn zeta in Hafter.
    pose proof (start_solver_status c (fst (connect_to_instance i connect)) ssh
                  (lookup_size_nonzero c n i Hi)) as Hst.
    destruct (start_solver_on_instance hash c _ ssh) as [[c' i'] ok].
    cbn in Hst, Hbefore.
    rewrite connect_to_instance_status in Hst.
    destruct (_ && _); cbn in Hafter; rewrite lookup_insert_eq in Hafter;
      cbn in Hafter.
    + rewrite Hst in Hafter.
      destruct (start_ok ssh), (command_ok connect); congruence.
    + rewrite connect_to_instance_status in Hafter.
      destruct (command_ok connect); congruence.
  - destruct (instances c !! n) as [i |] eqn:Hi;
      [| unfold health_check in Hafter; rewrite Hi in Hafter; congruence].
    rewrite (health_check_eq _ _ _ _ _ _ Hi) in Hafter.
    destruct (decide _) as [Hd | Hd]; [| rewrite Hi in Hafter; contradiction].
    cbn in Hafter. rewrite lookup_insert_eq in Hafter. cbn in Hafter.
    rewrite check_instance_status_status in Hafter.
    destruct ps as [p | e]; [| discriminate].
    destruct (contains "NOT_RUNNING" (stdout p)) eqn:Hc;
      [| destruct log; discriminate].
    exists p, log, now, (status i). auto.
  - destruct (instances c !! n) as [i |] eqn:Hi;
      [| unfold restart_instance in Hafter; rewrite Hi in Hafter; congruence].
    rewrite (restart_instance_eq _ _ _ _ _ _ Hi) in Hafter. cbn zeta in Hafter.
    destruct (decide _) as [Hd | Hd]; [| rewrite Hi in Hafter; contradiction].
    pose proof (start_solver_status c (fst (connect_to_instance i connect)) ssh
                  (lookup_size_nonzero c n i Hi)) as Hst.
    destruct (start_solver_on_instance hash c _ ssh) as [[c' i'] ok].
    cbn in Hst, Hbefore.
    rewrite connect_to_instance_status in Hst.
    destruct (command_ok connect) eqn:Hc; cbn in Hafter;
      rewrite lookup_insert_eq in Hafter; cbn in Hafter.
    + rewrite Hst in Hafter. destruct (start_ok ssh); congruence.
    + rewrite connect_to_instance_status, Hc in Hafter. congruence.
Qed.

(** C4, amended: a worker none of whose connection tests has succeeded keeps
    the status [inactive] through every sequence of fleet-start, health-check
    and restart iterations, so it is never stopped or failed; and [stopped]
    is assigned only by a health check that reads [NOT_RUNNING] for a worker
    whose status is not [inactive], whether or not it was ever running. *)
Theorem stopped_requires_connect_and_health_check :
  (forall c evs n,
     status_of c n = None \/ status_of c n = Some Inactive ->
     forallb (fun ev => negb (connect_succeeds n ev)) evs = true ->
     status_of (run hash c evs) n = None \/
     status_of (run hash c evs) n = Some Inactive) /\
  (forall c ev n,
     status_of c n <> Some Stopped ->
     status_of (step hash c ev) n = Some Stopped ->
     exists p log now s,
       ev = EvHealth n (Completed p) log now /\
       contains "NOT_RUNNING" (stdout p) = true /\
       status_of c n = Some s /\ s <> Inactive).
Proof.
  split; [| exact step_stops_only_by_health_check].
  intros c evs n. revert c.
  induction evs as [| ev evs IH]; intros c Hs Hevs; [exact Hs |].
  cbn [forallb] in Hevs. apply andb_true_iff in Hevs as [Hev Hevs].
  apply negb_true_iff in Hev. rewrite run_cons.
  apply IH; [| exact Hevs]. now apply step_keeps_inactive.
Qed.

(** C6, amended: in a fleet-start iteration a worker that is not running
    becomes [running] exactly when the connection test, the upload and the
    three start commands all succeed.  When the connection test succeeds and
    the upload or a start command fails, the worker is left [connected] and
    its error list is as before; its interval fields are the assignment for
    the present fleet once the start was attempted, and untouched before. *)
Theorem fleet_start_outcome (c : CloudShellCoordinator) (n : string)
    (i : CloudShellInstance) (connect : run_outcome)
    (path_exists : string -> bool) (scp ssh : nat -> run_outcome) :
  instances c !! n = Some i ->
  status i <> Running ->
  let uploaded :=
    upload_files_to_instance c (fst (connect_to_instance i connect)) path_exists scp in
  exists i',
    instances (start_instance hash c n connect path_exists scp ssh) !! n = Some i' /\
    (status i' = Running <->
     command_ok connect && uploaded && start_ok ssh = true) /\
    (command_ok connect = true -> uploaded && start_ok ssh = false ->
     status i' = Connected /\ errors i' = errors i) /\
    (if command_ok connect && uploaded
     then Some (ranges_of i') = assignment_of hash c (name i)
     else ranges_of i' = ranges_of i).
Proof.
  intros Hi Hrun uploaded.
  rewrite (start_instance_eq _ _ _ _ _ _ _ _ Hi). cbn zeta. fold uploaded.
  pose proof (connect_to_instance_status i connect) as Hst.
  pose proof (connect_to_instance_errors i connect) as Her.
  pose proof (connect_to_instance_ranges i connect) as Hra.
  pose proof (connect_to_instance_name i connect) as Hna.
  assert (Ha := assignment_of_eq hash c (name i)).
  destruct (decide _) as [Hz | _];
    [destruct (lookup_size_nonzero c n i Hi Hz) |].
  destruct (command_ok connect) eqn:Hc; cbn [andb].
  - assert (Her' : errors (fst (connect_to_instance i connect)) = errors i)
      by (destruct connect; [exact Her | discriminate]).
    destruct uploaded; cbn [andb].
    + rewrite start_solver_on_instance_eq by eauto using lookup_size_nonzero.
      cbn. rewrite lookup_insert_eq. eexists. split; [reflexivity |].
      rewrite Ha, Hna.
      destruct (start_ok ssh); cbn.
      * repeat split; discriminate.
      * rewrite Hst. repeat split; try discriminate; assumption.
    + cbn. rewrite lookup_insert_eq. eexists. split; [reflexivity |].
      rewrite Hst. repeat split; try discriminate; assumption.
  - cbn. rewrite lookup_insert_eq. eexists. split; [reflexivity |].
    rewrite Hst. repeat split; try discriminate; try assumption.
    intros H; contradiction.
Qed.

Lemma step_assignment_of c ev nm :
  is_add ev = false ->
  assignment_of hash (step hash c ev) nm = assignment_of hash c nm.
Proof.
  intros Hadd. destruct (step_fleet hash c ev) as (Hs & He & Hn).
  rewrite !assignment_of_eq. cbn zeta. now rewrite Hs, He, (Hn Hadd).
Qed.

(** While the fleet membership does not change, a worker that holds the
    interval assigned to it for the present fleet goes on holding it. *)
Lemma run_keeps_assignment evs :
  forall c n i,
    instances c !! n = Some i ->
    Some (ranges_of i) = assignment_of hash c (name i) ->
    forallb (fun ev => negb (is_add ev)) evs = true ->
    exists i',
      instances (run hash c evs) !! n = Some i' /\
      name i' = name i /\
      ranges_of i' = ranges_of i /\
      assignment_of hash (run hash c evs) (name i) = assignment_of hash c (name i).
Proof.
  induction evs as [| ev evs IH]; intros c n i Hi Hr Hevs.
  - exists i. auto.
  - cbn [forallb] in Hevs. apply andb_true_iff in Hevs as [Hev Hevs].
    apply negb_true_iff in Hev. rewrite run_cons.
    assert (Hstep : exists i1, instances (step hash c ev) !! n = Some i1 /\
                      name i1 = name i /\ ranges_of i1 = ranges_of i).
    { destruct (decide (event_worker ev = n)) as [Hw | Hw].
      - destruct (step_target hash c ev n i Hi Hw Hev)
          as (i1 & H1 & Hn1 & [Hr1 | Hr1] & _); exists i1; repeat split;
          congruence.
      - exists i. rewrite step_other by assumption. auto. }
    destruct Hstep as (i1 & Hi1 & Hn1 & Hr1).
    destruct (IH (step hash c ev) n i1 Hi1) as (i' & Hi' & Hn' & Hr' & Ha');
      [| exact Hevs |].
    + rewrite Hr1, Hn1, step_assignment_of by assumption. exact Hr.
    + exists i'. rewrite Hn1 in Ha'.
      rewrite step_assignment_of in Ha' by assumption.
      repeat split; congruence.
Qed.

(** C5: a worker that holds the interval assigned to it for the present
    fleet still holds it after any fleet-start, health-check and restart
    iterations that leave the fleet membership as it is; when it is then
    [stopped] or failed and the restart sweep reaches it, it is given the
    same interval again, and it is running with it when the connection test
    and the start commands succeed. *)
Theorem restart_keeps_interval (c : CloudShellCoordinator) (n : string)
    (i : CloudShellInstance) (evs : list event) (connect : run_outcome)
    (ssh : nat -> run_outcome) :
  instances c !! n = Some i ->
  Some (ranges_of i) = assignment_of hash c (name i) ->
  forallb (fun ev => negb (is_add ev)) evs = true ->
  exists failed restarted,
    instances (run hash c evs) !! n = Some failed /\
    ranges_of failed = ranges_of i /\
    instances (restart_instance hash (run hash c evs) n connect ssh) !! n
      = Some restarted /\
    ranges_of restarted = ranges_of i /\
    (status failed = Stopped \/ status failed = Error ->
     command_ok connect = true -> start_ok ssh = true ->
     status restarted = Running).
Proof.
  intros Hi Hr Hevs.
  destruct (run_keeps_assignment evs c n i Hi Hr Hevs) as (failed & Hf & Hnf & Hrf & Haf).
  destruct (run_keeps_assignment [EvRestart n connect ssh] (run hash c evs) n failed Hf)
    as (restarted & Hre & _ & Hrr & _); [congruence | reflexivity |].
  cbn in Hre. exists failed, restarted.
  repeat split; try assumption; try congruence.
  intros Hst Hc Hs.
  rewrite (restart_instance_eq _ _ _ _ _ _ Hf) in Hre. cbn zeta in Hre.
  destruct (decide _) as [_ | Hd]; [| contradiction].
  rewrite Hc in Hre.
  rewrite start_solver_on_instance_eq in Hre by eauto using lookup_size_nonzero.
  rewrite Hs in Hre. cbn in Hre. rewrite lookup_insert_eq in Hre.
  injection Hre as <-. reflexivity.
Qed.

End LifecycleClaims.

Lemma stopped_requires_connect_and_health_check_witness :
  status_of
    (run length_hash empty_coordinator
       [ev_add; ev_start_connect_fails; ev_health_not_running; ev_restart_succeeds])
    "puzzle-solver-1" = None \/
  status_of
    (run length_hash empty_coordinator
       [ev_add; ev_start_connect_fails; ev_health_not_running; ev_restart_succeeds])
    "puzzle-solver-1" = Some Inactive.
Proof.
  exact (proj1 (stopped_requires_connect_and_health_check length_hash)
           empty_coordinator
           [ev_add; ev_start_connect_fails; ev_health_not_running; ev_restart_succeeds]
           "puzzle-solver-1"
           ltac:(left; vm_compute; reflexivity) ltac:(vm_compute; reflexivity)).
Defined.

(** C4 does not hold as stated: a worker whose connection test succeeds and
    whose upload fails is [connected]; the next health check reads
    [NOT_RUNNING] and makes it [stopped], although it was never running. *)
Lemma never_running_worker_is_stopped :
  let c1 := step length_hash empty_coordinator ev_add in
  let c2 := step length_hash c1 ev_start_upload_fails in
  let c3 := step length_hash c2 ev_health_not_running in
  status_of c1 "puzzle-solver-1" = Some Inactive /\
  status_of c2 "puzzle-solver-1" = Some Connected /\
  status_of c3 "puzzle-solver-1" = Some Stopped.
Proof. vm_compute. repeat split; reflexivity. Qed.

Lemma error_log_grows_by_appending_witness :
  exists more,
    errors_of (run length_hash connected_coordinator
                 [ev_health_raises; ev_health_not_running; ev_restart_succeeds])
      "puzzle-solver-1"
    = (errors_of connected_coordinator "puzzle-solver-1" ++ more)%list /\
    (length more <= 3)%nat.
Proof.
  exact (error_log_grows_by_appending length_hash connected_coordinator
           [ev_health_raises; ev_health_not_running; ev_restart_succeeds]
           "puzzle-solver-1" ltac:(reflexivity)).
Defined.

Lemma failing_checks_accumulate k :
  forall c s,
    status_of c "puzzle-solver-1" = Some s -> s <> Inactive ->
    length (errors_of (run length_hash c (repeat ev_health_raises k)) "puzzle-solver-1")
    = (length (errors_of c "puzzle-solver-1") + k)%nat.
Proof.
  induction k as [| k IH]; intros c s Hs Hne; [cbn; lia |].
  cbn [repeat]. rewrite run_cons.
  unfold status_of in Hs.
  destruct (instances c !! "puzzle-solver-1") as [i |] eqn:Hi; [| discriminate].
  cbn in Hs. injection Hs as <-.
  assert (Hstep : step length_hash c ev_health_raises
                  = set_instance "puzzle-solver-1"
                      (check_instance_status i (Raised "timed out after 15 seconds")
                         (process 0 "") 30) c).
  { cbn [step ev_health_raises]. rewrite (health_check_eq _ _ _ _ _ _ Hi).
    destruct (decide _); [reflexivity | contradiction]. }
  rewrite (IH _ Error); [| | discriminate].
  - unfold errors_of. rewrite Hstep, Hi. cbn. rewrite lookup_insert_eq.
    cbn. rewrite length_app. cbn. lia.
  - unfold status_of. rewrite Hstep. cbn. rewrite lookup_insert_eq. reflexivity.
Qed.

(** C9 does not hold as stated: no bound holds for the error list of a
    connected worker, since every status check that raises appends an entry
    and nothing ever removes one. *)
Lemma error_log_exceeds_every_bound :
  ~ exists bound : nat,
      forall evs,
        (length (errors_of (run length_hash connected_coordinator evs)
                   "puzzle-solver-1") <= bound)%nat.
Proof.
  intros [bound H].
  specialize (H (repeat ev_health_raises (S bound))).
  rewrite (failing_checks_accumulate (S bound) connected_coordinator Connected) in H.
  - lia.
  - vm_compute. reflexivity.
  - discriminate.
Qed.

(** C6 does not hold as stated: after a successful connection test, a
    failed upload or a failed start command leaves the worker [connected],
    not failed, and its error list empty. *)
Lemma failed_deployment_leaves_worker_connected :
  let c1 := step length_hash empty_coordinator ev_add in
  let c2 := step length_hash c1 ev_start_upload_fails in
  let c3 := step length_hash c1 ev_start_command_fails in
  (status_of c2 "puzzle-solver-1" = Some Connected /\
   errors_of c2 "puzzle-solver-1" = []) /\
  (status_of c3 "puzzle-solver-1" = Some Connected /\
   errors_of c3 "puzzle-solver-1" = []).
Proof. vm_compute. repeat split; reflexivity. Qed.

Lemma fleet_start_outcome_witness :
  exists i',
    instances (start_instance length_hash
                 (step length_hash empty_coordinator ev_add) "puzzle-solver-1"
                 (process 0 "Connection test") (fun _ => true)
                 (fun _ => process 0 "")
                 (fun k => if (k =? 2)%nat then process 127 "" else process 0 ""))
      !! "puzzle-solver-1" = Some i' /\
    (status i' = Running <-> false = true) /\
    (true = true -> false = false ->
     status i' = Connected /\ errors i' = errors fresh_instance) /\
    Some (ranges_of i') = Some ("0x20000000000000000", "0x3ffffffffffffffff").
Proof.
  exact (fleet_start_outcome length_hash
           (step length_hash empty_coordinator ev_add) "puzzle-solver-1"
           fresh_instance (process 0 "Connection test") (fun _ => true)
           (fun _ => process 0 "")
           (fun k => if (k =? 2)%nat then process 127 "" else process 0 "")
           ltac:(vm_compute; reflexivity) ltac:(discriminate)).
Defined.

Lemma restart_keeps_interval_witness :
  exists failed restarted,
    instances (run length_hash running_coordinator [ev_health_not_running])
      !! "puzzle-solver-1" = Some failed /\
    ranges_of failed = ("0x20000000000000000", "0x3ffffffffffffffff") /\
    instances (restart_instance length_hash
                 (run length_hash running_coordinator [ev_health_not_running])
                 "puzzle-solver-1" (process 0 "Connection test")
                 (fun _ => process 0 ""))
      !! "puzzle-solver-1" = Some restarted /\
    ranges_of restarted = ("0x20000000000000000", "0x3ffffffffffffffff") /\
    (status failed = Stopped \/ status failed = Error ->
     true = true -> true = true -> status restarted = Running).
Proof.
  exact (restart_keeps_interval length_hash running_coordinator "puzzle-solver-1"
           (set_status Running
              (set_ranges "0x20000000000000000" "0x3ffffffffffffffff" fresh_instance))
           [ev_health_not_running] (process 0 "Connection test")
           (fun _ => process 0 "")
           ltac:(vm_compute; reflexivity) ltac:(vm_compute; reflexivity)
           ltac:(reflexivity)).
Defined.

(** * Further properties of the code *)

(** ** RangeManager *)

(** X1: marking a worker completed adds the interval now recorded for it,
    and nothing else, to the completed set; it leaves the recorded
    assignments alone, does nothing for a worker without a recorded interval,
    and doing it twice is the same as doing it once. *)
Theorem mark_range_completed_adds_recorded (rm : RangeManager) (nm : string) :
  (forall r, r ∈ completed_ranges (mark_range_completed rm nm) <->
             r ∈ completed_ranges rm \/ assigned_ranges rm !! nm = Some r) /\
  assigned_ranges (mark_range_completed rm nm) = assigned_ranges rm /\
  (assigned_ranges rm !! nm = None -> mark_range_completed rm nm = rm) /\
  mark_range_completed (mark_range_completed rm nm) nm = mark_range_completed rm nm.
Proof.
  unfold mark_range_completed.
  destruct (assigned_ranges rm !! nm) as [r0 |] eqn:Hr; cbn.
  - rewrite Hr. cbn. repeat split.
    + intros H. apply elem_of_union in H as [H | H]; [| now left].
      apply elem_of_singleton in H. subst. now right.
    + intros [H | H]; [apply elem_of_union; now right |].
      injection H as ->. apply elem_of_union. left. now apply elem_of_singleton.
    + discriminate.
    + f_equal. now rewrite (assoc_L (∪)), (idemp_L (∪)).
  - rewrite Hr. repeat split; try tauto. intros [H | H]; [exact H | discriminate].
Qed.

Lemma mark_range_completed_adds_recorded_witness :
  let rm := mkRangeManager 0 9 (<["w" := (0, 4)]> ∅) ∅ in
  mark_range_completed rm "v" = rm.
Proof.
  intros rm.
  apply (proj1 (proj2 (proj2 (mark_range_completed_adds_recorded rm "v")))).
  vm_compute. reflexivity.
Defined.

(** X2: for a non-empty total interval and a positive fleet size, the
    interval assigned to a worker lies inside the total interval; it may be
    empty (upper bound one below the lower bound) but is never inverted
    further. *)
Theorem assigned_interval_within_total (hash : string -> Z) (rm : RangeManager)
    (nm : string) (n : Z) :
  total_start rm <= total_end rm ->
  1 <= n ->
  exists lo hi,
    assigned_interval hash rm nm n = Some (lo, hi) /\
    total_start rm <= lo /\ lo <= hi + 1 /\ hi <= total_end rm.
Proof.
  intros Hse Hn. rewrite assigned_interval_index by lia.
  unfold interval_of_index. eexists _, _. split; [reflexivity |].
  set (size := (total_end rm - total_start rm) / n).
  set (i := hash nm mod n).
  assert (Hi : 0 <= i < n) by (apply Z.mod_pos_bound; lia).
  assert (Hsize : 0 <= size) by (apply Z.div_pos; lia).
  assert (Hfit : n * size <= total_end rm - total_start rm)
    by (apply Z.mul_div_le; lia).
  assert (0 <= i * size) by (apply Z.mul_nonneg_nonneg; lia).
  assert (0 <= (n - 1 - i) * size) by (apply Z.mul_nonneg_nonneg; lia).
  destruct (Z.eqb_spec i (n - 1)) as [He | He].
  - rewrite He in *. lia.
  - assert (0 <= (n - 2 - i) * size) by (apply Z.mul_nonneg_nonneg; lia). lia.
Qed.

Lemma assigned_interval_within_total_witness :
  exists lo hi,
    assigned_interval length_hash (mkRangeManager 10 12 ∅ ∅) "w" 5 = Some (lo, hi) /\
    10 <= lo /\ lo <= hi + 1 /\ hi <= 12.
Proof.
  exact (assigned_interval_within_total length_hash (mkRangeManager 10 12 ∅ ∅)
           "w" 5 ltac:(cbn; lia) ltac:(lia)).
Defined.

(** X3: when the worker names of a fleet are sent by [hash(name) % N] to
    the indices [0 .. N-1] one to one and onto, the assigned intervals
    partition the total interval: every key of it lies in the interval of
    some worker, and two workers whose intervals share a key are the
    same. *)
Theorem assignment_partitions_when_indices_distinct (hash : string -> Z)
    (rm : RangeManager) (names : list string) (n : Z) :
  total_start rm <= total_end rm ->
  1 <= n ->
  (forall i, 0 <= i < n -> exists nm, In nm names /\ hash nm mod n = i) ->
  (forall a b, In a names -> In b names -> hash a mod n = hash b mod n -> a = b) ->
  (forall x, total_start rm <= x <= total_end rm ->
     exists nm r, In nm names /\ assigned_interval hash rm nm n = Some r /\ covers r x) /\
  (forall a b ra rb x,
     In a names -> In b names ->
     assigned_interval hash rm a n = Some ra ->
     assigned_interval hash rm b n = Some rb ->
     covers ra x -> covers rb x -> a = b).
Proof.
  intros Hse Hn Honto Hinj. split.
  - intros x Hx.
    destruct (index_intervals_cover _ _ n x Hn Hx) as (i & Hi & Hc).
    destruct (Honto i Hi) as (nm & Hin & Hidx).
    exists nm, (interval_of_index (total_start rm) (total_end rm) n i).
    split; [exact Hin |]. split; [| exact Hc].
    rewrite assigned_interval_index by lia. now rewrite Hidx.
  - intros a b ra rb x Ha Hb Hra Hrb Hca Hcb.
    rewrite assigned_interval_index in Hra, Hrb by lia.
    injection Hra as <-. injection Hrb as <-.
    apply Hinj; try assumption.
    apply (index_intervals_disjoint (total_start rm) (total_end rm) n _ _ x);
      try assumption; apply Z.mod_pos_bound; lia.
Qed.

Lemma assignment_partitions_when_indices_distinct_witness :
  let rm := mkRangeManager 0 9 ∅ ∅ in
  (forall x, 0 <= x <= 9 ->
     exists nm r, In nm [""; "a"] /\
       assigned_interval length_hash rm nm 2 = Some r /\ covers r x) /\
  (forall a b ra rb x,
     In a [""; "a"] -> In b [""; "a"] ->
     assigned_interval length_hash rm a 2 = Some ra ->
     assigned_interval length_hash rm b 2 = Some rb ->
     covers ra x -> covers rb x -> a = b).
Proof.
  intros rm.
  apply (assignment_partitions_when_indices_distinct length_hash rm [""; "a"] 2).
  - cbn. lia.
  - lia.
  - intros i Hi. assert (Hc : i = 0 \/ i = 1) by lia.
    destruct Hc as [-> | ->]; [exists "" | exists "a"]; cbn; auto.
  - intros a b [<- | [<- | []]] [<- | [<- | []]]; vm_compute; intros H;
      first [reflexivity | discriminate H].
Defined.

(** *** Reading back what [hex] prints *)

Lemma hex_value_pos d : forall p,
  hex_value d (Z.pos p) = Z.pos (Pos.of_hex_uint_acc d p).
Proof.
  induction d; intros p; cbn [hex_value Pos.of_hex_uint_acc]; try reflexivity;
    match goal with
    | |- hex_value _ (Z.pos ?p * 16 + ?k) = Z.pos (Pos.of_hex_uint_acc _ ?q) =>
        replace (Z.pos p * 16 + k) with (Z.pos q) by lia
    end; apply IHd.
Qed.

Lemma hex_value_of_hex_uint d : hex_value d 0 = Z.of_N (N.of_hex_uint d).
Proof.
  unfold N.of_hex_uint.
  induction d; cbn [hex_value Pos.of_hex_uint]; try reflexivity;
    try (rewrite Z.mul_0_l, Z.add_0_l; cbn [Z.of_N]; apply hex_value_pos).
  exact IHd.
Qed.

Lemma digits_go_hex d : forall acc n need,
  (d = Hexadecimal.Nil -> need = false) ->
  exists k, digits_go 16 acc n need (HexadecimalString.NilEmpty.string_of_uint d)
            = Some (hex_value d acc, k).
Proof.
  induction d; intros acc n need Hneed;
    cbn [HexadecimalString.NilEmpty.string_of_uint hex_value];
    try (cbn; apply IHd; reflexivity).
  rewrite Hneed by reflexivity. cbn. eauto.
Qed.

Lemma digits_go_hex_digits n :
  0 <= n ->
  exists k, digits_go 16 0 0 true (hex_digits n) = Some (n, k).
Proof.
  intros Hn. unfold hex_digits, HexadecimalString.NilZero.string_of_uint.
  assert (Hv : hex_value (N.to_hex_uint (Z.to_N n)) 0 = n)
    by (rewrite hex_value_of_hex_uint, HexadecimalN.Unsigned.of_to; lia).
  destruct (N.to_hex_uint (Z.to_N n)) eqn:Hd;
    try (rewrite <- Hv; apply digits_go_hex; discriminate).
  cbn in Hv. subst n. cbn. eauto.
Qed.

Lemma lstrip_no_space s : no_space s = true -> lstrip s = s.
Proof.
  destruct s as [| c s]; [reflexivity |]. cbn.
  destruct (isspace c); [discriminate | reflexivity].
Qed.

Lemma rstrip_no_space s : no_space s = true -> rstrip s = s.
Proof.
  induction s as [| c s IH]; [reflexivity |]. cbn [no_space rstrip].
  intros H. apply andb_true_iff in H as [Hc Hs].
  rewrite (IH Hs). apply negb_true_iff in Hc. rewrite Hc.
  destruct s; reflexivity.
Qed.

Lemma strip_no_space s : no_space s = true -> strip s = s.
Proof.
  intros H. unfold strip. rewrite (lstrip_no_space s H).
  now apply rstrip_no_space.
Qed.

Lemma c_isspace_isspace c : c_isspace c = true -> isspace c = true.
Proof.
  destruct c as [[] [] [] [] [] [] [] []]; vm_compute; intros H;
    first [reflexivity | discriminate H].
Qed.

Lemma no_space_c_isspace c : isspace c = false -> c_isspace c = false.
Proof.
  intros H. destruct (c_isspace c) eqn:Hc; [| reflexivity].
  apply c_isspace_isspace in Hc. congruence.
Qed.

Lemma c_strip_no_space s : no_space s = true -> c_strip s = s.
Proof.
  intros H. unfold c_strip.
  assert (Hl : c_lstrip s = s).
  { destruct s as [| c s]; [reflexivity |]. cbn in *.
    apply andb_true_iff in H as [Hc _]. apply negb_true_iff in Hc.
    now rewrite (no_space_c_isspace c Hc). }
  rewrite Hl. clear Hl.
  induction s as [| c s IH]; [reflexivity |]. cbn [no_space c_rstrip] in *.
  apply andb_true_iff in H as [Hc Hs]. apply negb_true_iff in Hc.
  rewrite (IH Hs), (no_space_c_isspace c Hc). destruct s; reflexivity.
Qed.

Lemma no_space_hex_digits n : no_space (hex_digits n) = true.
Proof.
  unfold hex_digits, HexadecimalString.NilZero.string_of_uint.
  assert (H : forall d, no_space (HexadecimalString.NilEmpty.string_of_uint d) = true)
    by (induction d; cbn; auto).
  destruct (N.to_hex_uint (Z.to_N n)) eqn:Hd; try (rewrite <- Hd; apply H).
  reflexivity.
Qed.

Lemma hex_nonneg n : 0 <= n -> hex n = String "0" (String "x" (hex_digits n)).
Proof.
  intros Hn. unfold hex, hex_digits.
  replace (n <? 0) with false by (symmetry; apply Z.ltb_ge; lia).
  reflexivity.
Qed.

Lemma hex_neg n :
  n < 0 -> hex n = String "-" (String "0" (String "x" (hex_digits (- n)))).
Proof.
  intros Hn. unfold hex, hex_digits.
  replace (n <? 0) with true by (symmetry; apply Z.ltb_lt; lia).
  reflexivity.
Qed.

Lemma digits_start_no_underscore base ds r :
  digits_go base 0 0 true ds = Some r ->
  match ds with String "_" rest => rest | _ => ds end = ds.
Proof.
  destruct ds as [| c rest]; [reflexivity |].
  destruct (Ascii.eqb_spec c "_") as [-> | Hne]; [cbn; discriminate |].
  intros _.
  destruct c as [[] [] [] [] [] [] [] []]; try reflexivity.
  congruence.
Qed.

(** [int()] skips TAB, LF, VT, FF, CR and space around a literal, but not the
    separators FS to US, on which [str.split()] does split. *)
Example int_skips_only_c_white_space :
  int_of_str (String "009" "5 ") 10 = Ok 5 /\
  int_of_str (String "028" "5") 10 = Raise (ValueError (String "028" "5")) /\
  float_of_str (String "5" (String "031" "")) = Raise (ValueError (String "5" (String "031" ""))) /\
  split_ws (String "028" "5") = ["5"].
Proof. vm_compute. repeat split; reflexivity. Qed.

(** [int(hex(n), 16)] is [n] for a non-negative [n]. *)
Lemma int_of_str_hex n : 0 <= n -> int_of_str (hex n) 16 = Ok n.
Proof.
  intros Hn. destruct (digits_go_hex_digits n Hn) as [k Hk].
  unfold int_of_str.
  rewrite hex_nonneg by assumption.
  rewrite c_strip_no_space by (cbn; apply no_space_hex_digits).
  cbn -[digits_go hex_digits].
  rewrite (digits_start_no_underscore _ _ _ Hk).
  replace (Ascii.eqb (lower "x") "x") with true by reflexivity.
  rewrite Hk. reflexivity.
Qed.

(** X4: the bounds that [hex] prints for non-negative integers are read
    back by the constructor of [RangeManager] as those integers. *)
Theorem RangeManager_init_reads_hex (s e : Z) :
  0 <= s -> 0 <= e ->
  RangeManager_init (hex s) (hex e) = Ok (mkRangeManager s e ∅ ∅).
Proof.
  intros Hs He. unfold RangeManager_init.
  assert (Hp : forall n, 0 <= n -> startswith (hex n) "0x" = true).
  { intros n Hn. rewrite hex_nonneg by assumption. cbn.
    destruct (hex_digits n); reflexivity. }
  rewrite (Hp s Hs), (Hp e He), !int_of_str_hex by assumption. reflexivity.
Qed.

Lemma RangeManager_init_reads_hex_witness :
  RangeManager_init (hex 0x20000000000000000) (hex 0x27ffffffffffffffe)
  = Ok (mkRangeManager 0x20000000000000000 0x27ffffffffffffffe ∅ ∅).
Proof.
  exact (RangeManager_init_reads_hex 0x20000000000000000 0x27ffffffffffffffe
           ltac:(lia) ltac:(lia)).
Defined.

(** X5: a negative bound as [hex] prints it ([-0x...]) does not start with
    [0x], so the constructor reads it in base 10 and raises [ValueError]. *)
Theorem RangeManager_init_rejects_negative_hex (s : Z) (total_end : string) :
  s < 0 ->
  RangeManager_init (hex s) total_end = Raise (ValueError (hex s)).
Proof.
  intros Hs. unfold RangeManager_init.
  assert (Hp : startswith (hex s) "0x" = false)
    by (rewrite hex_neg by assumption; reflexivity).
  assert (Hi : int_of_str (hex s) 10 = Raise (ValueError (hex s))).
  { unfold int_of_str. rewrite hex_neg by assumption.
    rewrite c_strip_no_space by (cbn; apply no_space_hex_digits).
    reflexivity. }
  rewrite Hp, Hi. reflexivity.
Qed.

Lemma RangeManager_init_rejects_negative_hex_witness :
  RangeManager_init (hex (-255)) "0x3ffffffffffffffff"
  = Raise (ValueError (hex (-255))).
Proof.
  exact (RangeManager_init_rejects_negative_hex (-255) "0x3ffffffffffffffff"
           ltac:(lia)).
Defined.

(** ** Fleet invariants *)

Section FleetInvariants.

Variable hash : string -> Z.

Lemma step_keeps_present c ev n :
  is_Some (instances c !! n) -> is_Some (instances (step hash c ev) !! n).
Proof.
  intros [i Hi].
  destruct (decide (event_worker ev = n)) as [Hw | Hw];
    [| rewrite step_other by assumption; eauto].
  destruct (is_add ev) eqn:Hadd.
  - destruct ev; try discriminate. cbn in Hw. subst.
    cbn. unfold add_instance, set_instance. cbn.
    rewrite lookup_insert_eq. eauto.
  - destruct (step_target hash c ev n i Hi Hw Hadd) as (i' & Hi' & _). eauto.
Qed.

Lemma step_present_was_present c ev n :
  is_add ev = false ->
  is_Some (instances (step hash c ev) !! n) -> is_Some (instances c !! n).
Proof.
  intros Hadd [i' Hi'].
  destruct (instances c !! n) as [i |] eqn:Hi; [eauto |].
  rewrite (step_absent hash c ev n Hi Hadd) in Hi'. discriminate.
Qed.

(** X6: no iteration of the fleet-start, health-check or restart loops, and
    no addition, ever removes a worker from the fleet; and as long as no
    worker is added, the set of worker names and the total interval stay
    what they were. *)
Theorem fleet_membership_is_stable (c : CloudShellCoordinator) (evs : list event) :
  dom (instances c) ⊆ dom (instances (run hash c evs)) /\
  (forallb (fun ev => negb (is_add ev)) evs = true ->
   dom (instances (run hash c evs)) = dom (instances c) /\
   total_start (range_manager (run hash c evs)) = total_start (range_manager c) /\
   total_end (range_manager (run hash c evs)) = total_end (range_manager c)).
Proof.
  revert c. induction evs as [| ev evs IH]; intros c.
  - cbn. split; [reflexivity | auto].
  - rewrite run_cons. destruct (IH (step hash c ev)) as [Hsub Heq]. split.
    + intros n Hn. apply Hsub. apply elem_of_dom. apply elem_of_dom in Hn.
      now apply step_keeps_present.
    + cbn [forallb]. intros H. apply andb_true_iff in H as [Hev Hevs].
      apply negb_true_iff in Hev.
      destruct (Heq Hevs) as (Hd & Hs & He).
      destruct (step_fleet hash c ev) as (Hs' & He' & _).
      rewrite Hd, Hs, He, Hs', He'. repeat split.
      apply set_eq. intros n. rewrite !elem_of_dom. split.
      * now apply step_present_was_present.
      * apply step_keeps_present.
Qed.

Lemma consistent_add c nm project_id zone username env_user now :
  fleet_consistent c ->
  fleet_consistent (add_instance c nm project_id zone username env_user now).
Proof.
  intros [Hk Hr]. unfold add_instance, set_instance. split; intros n i; cbn;
    (destruct (decide (nm = n)) as [-> | Hne];
     [rewrite lookup_insert_eq; intros [= <-] | rewrite lookup_insert_ne by assumption]).
  - reflexivity.
  - apply Hk.
  - left. reflexivity.
  - apply Hr.
Qed.

Lemma consistent_update c m i i' :
  fleet_consistent c -> instances c !! m = Some i ->
  name i' = name i -> ranges_of i' = ranges_of i ->
  fleet_consistent (set_instance m i' c).
Proof.
  intros [Hk Hr] Hi Hn Hra. unfold set_instance. split; intros n j; cbn;
    (destruct (decide (m = n)) as [-> | Hne];
     [rewrite lookup_insert_eq; intros [= <-] | rewrite lookup_insert_ne by assumption]).
  - rewrite Hn. now apply Hk.
  - apply Hk.
  - rewrite Hra. now apply Hr.
  - apply Hr.
Qed.

Lemma consistent_deploy c m i i1 ssh :
  fleet_consistent c -> instances c !! m = Some i -> name i1 = name i ->
  fleet_consistent
    (let '(c', i', _) := start_solver_on_instance hash c i1 ssh in
     set_instance m i' c').
Proof.
  intros [Hk Hr] Hi Hn.
  rewrite start_solver_on_instance_eq by eauto using lookup_size_nonzero.
  assert (Hm : name i1 = m) by (rewrite Hn; now apply Hk).
  rewrite Hm. unfold set_instance, set_range_manager.
  split; intros n j; cbn;
    (destruct (decide (m = n)) as [<- | Hne];
     [rewrite lookup_insert_eq; intros [= <-] | rewrite lookup_insert_ne by assumption]).
  - destruct (start_ok ssh); exact Hm.
  - apply Hk.
  - right. eexists _, _. rewrite lookup_insert_eq. split; [reflexivity |].
    destruct (start_ok ssh); reflexivity.
  - intros Hj. destruct (Hr n j Hj) as [H | (lo & hi & Hl & H)]; [now left |].
    right. exists lo, hi. rewrite lookup_insert_ne by assumption. auto.
Qed.

Lemma consistent_step c ev :
  fleet_consistent c -> fleet_consistent (step hash c ev).
Proof.
  intros Hc.
  destruct ev as [m ? ? ? ? ? | m connect pe scp ssh | m ps log now | m connect ssh];
    cbn [step].
  - now apply consistent_add.
  - destruct (instances c !! m) as [i |] eqn:Hi;
      [| unfold start_instance; now rewrite Hi].
    rewrite (start_instance_eq _ _ _ _ _ _ _ _ Hi). cbn zeta.
    destruct (_ && _).
    + apply (consistent_deploy c m i); auto using connect_to_instance_name.
    + apply (consistent_update c m i); auto using connect_to_instance_name,
        connect_to_instance_ranges.
  - destruct (instances c !! m) as [i |] eqn:Hi;
      [| unfold health_check; now rewrite Hi].
    rewrite (health_check_eq _ _ _ _ _ _ Hi).
    destruct (decide _); [| exact Hc].
    apply (consistent_update c m i); auto using check_instance_status_name,
      check_instance_status_ranges.
  - destruct (instances c !! m) as [i |] eqn:Hi;
      [| unfold restart_instance; now rewrite Hi].
    rewrite (restart_instance_eq _ _ _ _ _ _ Hi). cbn zeta.
    destruct (decide _); [| exact Hc].
    destruct (command_ok _).
    + apply (consistent_deploy c m i); auto using connect_to_instance_name.
    + apply (consistent_update c m i); auto using connect_to_instance_name,
        connect_to_instance_ranges.
Qed.

(** X7: in a coordinator built by additions and loop iterations from an
    empty fleet, every handle is stored under its own name, and its
    interval fields are either still empty or print exactly the interval
    that the range manager has on record for that worker. *)
Theorem handles_agree_with_range_manager (rm : RangeManager)
    (cfg : CoordinatorConfig) (evs : list event) :
  let c := run hash (mkCoordinator cfg ∅ rm false) evs in
  forall n i, instances c !! n = Some i ->
    name i = n /\
    (ranges_of i = ("", "") \/
     exists lo hi,
       assigned_ranges (range_manager c) !! n = Some (lo, hi) /\
       ranges_of i = (hex lo, hex hi)).
Proof.
  assert (Hrun : forall evs c, fleet_consistent c -> fleet_consistent (run hash c evs)).
  { clear evs. induction evs as [| ev evs IH]; intros c Hc; [exact Hc |].
    rewrite run_cons. apply IH. now apply consistent_step. }
  assert (H0 : fleet_consistent (mkCoordinator cfg ∅ rm false))
    by (split; intros n i; cbn; rewrite lookup_empty; discriminate).
  intros c n i Hi. destruct (Hrun evs _ H0) as [Hk Hr].
  split; [now apply Hk | now apply Hr].
Qed.

End FleetInvariants.

Lemma fleet_membership_is_stable_witness :
  dom (instances (run length_hash connected_coordinator
                    [ev_health_raises; ev_restart_succeeds]))
  = dom (instances connected_coordinator).
Proof.
  exact (proj1 (proj2 (fleet_membership_is_stable length_hash connected_coordinator
                         [ev_health_raises; ev_restart_succeeds])
                 ltac:(reflexivity))).
Defined.

Lemma handles_agree_with_range_manager_witness :
  let i := set_status Running
             (set_ranges "0x20000000000000000" "0x3ffffffffffffffff" fresh_instance) in
  name i = "puzzle-solver-1" /\
  (ranges_of i = ("", "") \/
   exists lo hi,
     assigned_ranges (range_manager running_coordinator) !! "puzzle-solver-1"
       = Some (lo, hi) /\
     ranges_of i = (hex lo, hex hi)).
Proof.
  exact (handles_agree_with_range_manager length_hash default_range_manager
           default_config [ev_add; ev_start_succeeds] "puzzle-solver-1"
           (set_status Running
              (set_ranges "0x20000000000000000" "0x3ffffffffffffffff" fresh_instance))
           ltac:(vm_compute; reflexivity)).
Defined.

(** ** Lifecycle *)

Section LifecycleMore.

Variable hash : string -> Z.

Lemma connect_ok_eq i connect :
  command_ok connect = true ->
  fst (connect_to_instance i connect) = set_status Connected i.
Proof.
  destruct connect as [p | e]; cbn; [| discriminate].
  intros ->. reflexivity.
Qed.

(** X8: when the restart sweep reaches a stopped or failed worker and the
    connection test and the three start commands succeed, the worker is
    running again and its error list, its counters and its last-update stamp
    are what they were: a restart clears nothing. *)
Theorem restart_success_keeps_history (c : CloudShellCoordinator) (n : string)
    (i : CloudShellInstance) (connect : run_outcome) (ssh : nat -> run_outcome) :
  instances c !! n = Some i ->
  status i = Stopped \/ status i = Error ->
  command_ok connect = true ->
  start_ok ssh = true ->
  exists i',
    instances (restart_instance hash c n connect ssh) !! n = Some i' /\
    status i' = Running /\
    errors i' = errors i /\
    total_keys_checked i' = total_keys_checked i /\
    keys_per_second i' = keys_per_second i /\
    last_update i' = last_update i.
Proof.
  intros Hi Hst Hc Hs.
  rewrite (restart_instance_eq _ _ _ _ _ _ Hi). cbn zeta.
  destruct (decide _) as [_ | Hd]; [| contradiction].
  rewrite Hc, (connect_ok_eq i connect Hc).
  rewrite start_solver_on_instance_eq by eauto using lookup_size_nonzero.
  rewrite Hs. cbn. rewrite lookup_insert_eq. eexists. split; [reflexivity |].
  cbn. auto.
Qed.

(** X9: a worker whose connection test succeeded and whose upload or start
    then failed is left [connected], and the restart sweep, which only
    looks at stopped and failed workers, passes it by. *)
Theorem failed_deployment_is_not_retried (c : CloudShellCoordinator) (n : string)
    (i : CloudShellInstance) (connect connect' : run_outcome)
    (path_exists : string -> bool) (scp ssh ssh' : nat -> run_outcome) :
  instances c !! n = Some i ->
  command_ok connect = true ->
  upload_files_to_instance c (set_status Connected i) path_exists scp
    && start_ok ssh = false ->
  let c' := start_instance hash c n connect path_exists scp ssh in
  status_of c' n = Some Connected /\
  restart_instance hash c' n connect' ssh' = c'.
Proof.
  intros Hi Hc Hfail c'. subst c'.
  rewrite (start_instance_eq _ _ _ _ _ _ _ _ Hi). cbn zeta.
  rewrite Hc, (connect_ok_eq i connect Hc). cbn [andb].
  assert (Hskip : forall c1 i1, instances c1 !! n = Some i1 -> status i1 = Connected ->
            status_of c1 n = Some Connected /\ restart_instance hash c1 n connect' ssh' = c1).
  { intros c1 i1 H1 Hs1. split; [unfold status_of; now rewrite H1, <- Hs1 |].
    rewrite (restart_instance_eq _ _ _ _ _ _ H1).
    destruct (decide _) as [[Hd | Hd] | _]; [congruence | congruence | reflexivity]. }
  destruct (upload_files_to_instance _ _ _ _); cbn [andb] in *.
  - rewrite start_solver_on_instance_eq by eauto using lookup_size_nonzero.
    rewrite Hfail. eapply Hskip; [apply lookup_insert_eq | reflexivity].
  - eapply Hskip; [apply lookup_insert_eq | reflexivity].
Qed.

(** X10: a status check looks only at the output of the process listing,
    never at its exit status: whenever the output lacks [NOT_RUNNING] (an
    empty output of a command that could not reach the worker included) and
    the log fetch does not raise, the worker is marked running, stamped, and
    no error is recorded. *)
Theorem status_check_ignores_exit_status (i : CloudShellInstance)
    (listing log_result : CompletedProcess) (now : datetime) :
  contains "NOT_RUNNING" (stdout listing) = false ->
  let i' := check_instance_status i (Completed listing) (Completed log_result) now in
  status i' = Running /\ errors i' = errors i /\ last_update i' = now.
Proof.
  intros Hc i'. subst i'.
  rewrite check_instance_status_status, check_instance_status_errors, Hc.
  repeat split. unfold check_instance_status. rewrite Hc. reflexivity.
Qed.

(** X11: files that do not exist on the coordinator's side are skipped
    without a word: when neither the binary nor the puzzle file exists, the
    upload counts as done, and a worker whose connection test and start
    commands succeed is marked running although nothing was copied. *)
Theorem missing_files_do_not_block_start (c : CloudShellCoordinator) (n : string)
    (i : CloudShellInstance) (connect : run_outcome) (path_exists : string -> bool)
    (scp ssh : nat -> run_outcome) :
  instances c !! n = Some i ->
  path_exists (binary_name (config c)) = false ->
  path_exists (puzzle_file (config c)) = false ->
  command_ok connect = true ->
  start_ok ssh = true ->
  upload_files_to_instance c i path_exists scp = true /\
  status_of (start_instance hash c n connect path_exists scp ssh) n = Some Running.
Proof.
  intros Hi Hb Hp Hc Hs.
  assert (Hup : forall j, upload_files_to_instance c j path_exists scp = true)
    by (intros j; unfold upload_files_to_instance; cbn; now rewrite Hb, Hp).
  split; [apply Hup |].
  rewrite (start_instance_eq _ _ _ _ _ _ _ _ Hi). cbn zeta.
  rewrite Hc, Hup. cbn [andb].
  rewrite start_solver_on_instance_eq by eauto using lookup_size_nonzero.
  rewrite Hs. unfold status_of. cbn. rewrite lookup_insert_eq. reflexivity.
Qed.

(** X12: with no worker in the fleet the interval computation divides by
    zero; creating a configuration raises [ZeroDivisionError], and starting
    a solver catches it, runs no command, reports failure and leaves the
    coordinator and the handle as they were. *)
Theorem start_solver_on_empty_fleet (c : CloudShellCoordinator)
    (i : CloudShellInstance) (ssh : nat -> run_outcome) :
  instances c = ∅ ->
  create_config_for_instance hash c i = Raise ZeroDivisionError /\
  start_solver_on_instance hash c i ssh = (c, i, false).
Proof.
  intros He.
  assert (Hc : create_config_for_instance hash c i = Raise ZeroDivisionError).
  { unfold create_config_for_instance. rewrite He, map_size_empty. reflexivity. }
  split; [exact Hc |].
  unfold start_solver_on_instance. now rewrite Hc.
Qed.

End LifecycleMore.

(** X13: adding a worker under a name the fleet does not hold yet makes the
    fleet one larger, stores a fresh inactive handle under that name and
    leaves every other handle and the range manager as they were. *)
Theorem add_instance_new_name (c : CloudShellCoordinator)
    (nm project_id zone : string) (username env_user : option string)
    (now : datetime) :
  instances c !! nm = None ->
  let c' := add_instance c nm project_id zone username env_user now in
  size (instances c') = S (size (instances c)) /\
  (exists fresh, instances c' !! nm = Some fresh /\ name fresh = nm /\
                 status fresh = Inactive /\ errors fresh = [] /\
                 ranges_of fresh = ("", "")) /\
  (forall m, m <> nm -> instances c' !! m = instances c !! m) /\
  range_manager c' = range_manager c.
Proof.
  intros Hn c'. subst c'. unfold add_instance, set_instance; cbn.
  split; [now apply map_size_insert_None |].
  split; [eexists; split; [apply lookup_insert_eq | auto] |].
  split; [| reflexivity].
  intros m Hm. apply lookup_insert_ne. congruence.
Qed.

Lemma restart_success_keeps_history_witness :
  exists i',
    instances (restart_instance length_hash stopped_coordinator "puzzle-solver-1"
                 (process 0 "Connection test") (fun _ => process 0 ""))
      !! "puzzle-solver-1" = Some i' /\
    status i' = Running /\
    errors i' = errors stopped_instance /\
    total_keys_checked i' = total_keys_checked stopped_instance /\
    keys_per_second i' = keys_per_second stopped_instance /\
    last_update i' = last_update stopped_instance.
Proof.
  exact (restart_success_keeps_history length_hash stopped_coordinator
           "puzzle-solver-1" stopped_instance (process 0 "Connection test")
           (fun _ => process 0 "")
           ltac:(vm_compute; reflexivity) ltac:(left; reflexivity)
           ltac:(reflexivity) ltac:(reflexivity)).
Defined.

Lemma failed_deployment_is_not_retried_witness :
  let c' := start_instance length_hash added_coordinator "puzzle-solver-1"
              (process 0 "Connection test") (fun _ => true)
              (fun _ => process 1 "") (fun _ => process 0 "") in
  status_of c' "puzzle-solver-1" = Some Connected /\
  restart_instance length_hash c' "puzzle-solver-1"
    (process 0 "Connection test") (fun _ => process 0 "") = c'.
Proof.
  exact (failed_deployment_is_not_retried length_hash added_coordinator
           "puzzle-solver-1" fresh_instance
           (process 0 "Connection test") (process 0 "Connection test")
           (fun _ => true) (fun _ => process 1 "") (fun _ => process 0 "")
           (fun _ => process 0 "")
           ltac:(vm_compute; reflexivity) ltac:(reflexivity)
           ltac:(reflexivity)).
Defined.

Lemma status_check_ignores_exit_status_witness :
  let i' := check_instance_status (set_status Connected fresh_instance)
              (Completed unreachable_listing) (Completed unreachable_listing) 30 in
  status i' = Running /\ errors i' = [] /\ last_update i' = 30.
Proof.
  exact (status_check_ignores_exit_status (set_status Connected fresh_instance)
           unreachable_listing unreachable_listing 30 ltac:(reflexivity)).
Defined.

Lemma missing_files_do_not_block_start_witness :
  upload_files_to_instance added_coordinator fresh_instance (fun _ => false)
    (fun _ => Raised "scp: No such file") = true /\
  status_of (start_instance length_hash added_coordinator "puzzle-solver-1"
               (process 0 "Connection test") (fun _ => false)
               (fun _ => Raised "scp: No such file") (fun _ => process 0 ""))
    "puzzle-solver-1" = Some Running.
Proof.
  exact (missing_files_do_not_block_start length_hash added_coordinator
           "puzzle-solver-1" fresh_instance (process 0 "Connection test")
           (fun _ => false) (fun _ => Raised "scp: No such file")
           (fun _ => process 0 "")
           ltac:(vm_compute; reflexivity) ltac:(reflexivity) ltac:(reflexivity)
           ltac:(reflexivity) ltac:(reflexivity)).
Defined.

Lemma start_solver_on_empty_fleet_witness :
  create_config_for_instance length_hash empty_coordinator fresh_instance
    = Raise ZeroDivisionError /\
  start_solver_on_instance length_hash empty_coordinator fresh_instance
    (fun _ => process 0 "") = (empty_coordinator, fresh_instance, false).
Proof.
  exact (start_solver_on_empty_fleet length_hash empty_coordinator fresh_instance
           (fun _ => process 0 "") ltac:(reflexivity)).
Defined.

Lemma add_instance_new_name_witness :
  let c' := add_instance empty_coordinator "puzzle-solver-1" "mon-projet-1"
              "us-central1-a" (Some "cloudshell") None 0 in
  size (instances c') = S (size (instances empty_coordinator)) /\
  (exists fresh, instances c' !! "puzzle-solver-1" = Some fresh /\
                 name fresh = "puzzle-solver-1" /\
                 status fresh = Inactive /\ errors fresh = [] /\
                 ranges_of fresh = ("", "")) /\
  (forall m, m <> "puzzle-solver-1" ->
             instances c' !! m = instances empty_coordinator !! m) /\
  range_manager c' = range_manager empty_coordinator.
Proof.
  exact (add_instance_new_name empty_coordinator "puzzle-solver-1" "mon-projet-1"
           "us-central1-a" (Some "cloudshell") None 0
           ltac:(vm_compute; reflexivity)).
Defined.

(** ** Statistics parsing, continued *)

(** X14: the two fields are only told apart by the [|] between them.  When
    the first line holding both labels has no [|], the whole line is one
    segment, only its [Total:] field is read, and the throughput of the
    worker is left as it was. *)
Theorem unseparated_fields_leave_throughput (i : CloudShellInstance)
    (log line : string) (before after : list string) :
  split log nl = (before ++ line :: after)%list ->
  forallb (fun l => negb (is_stats_line l)) before = true ->
  is_stats_line line = true ->
  contains "|" line = false ->
  keys_per_second (fst (parse_statistics i log)) = keys_per_second i.
Proof.
  intros Hlog Hbefore Hline Hpipe.
  unfold parse_statistics. rewrite Hlog.
  rewrite parse_lines_first_stats_line by assumption.
  rewrite (split_without _ _ Hpipe).
  unfold is_stats_line in Hline. apply andb_true_iff in Hline as [Ht _].
  cbn [parse_parts]. rewrite Ht.
  destruct (_ ≫= _); reflexivity.
Qed.

Lemma unseparated_fields_leave_throughput_witness :
  keys_per_second
    (fst (parse_statistics worn_instance "[Stats] Total: 5, Vitesse: 7 k/s"))
  = keys_per_second worn_instance.
Proof.
  exact (unseparated_fields_leave_throughput worn_instance
           "[Stats] Total: 5, Vitesse: 7 k/s" "[Stats] Total: 5, Vitesse: 7 k/s"
           [] [] ltac:(vm_compute; reflexivity) ltac:(reflexivity)
           ltac:(vm_compute; reflexivity) ltac:(vm_compute; reflexivity)).
Defined.

(** ** Status display *)

Lemma display_totals_running acc values :
  display_totals acc values = display_totals acc (List.filter is_running values) /\
  active_instances (display_totals acc values)
  = active_instances acc + Z.of_nat (length (List.filter is_running values)) /\
  total_keys (display_totals acc values)
  = total_keys acc + sum_keys (List.filter is_running values).
Proof.
  revert acc. induction values as [| i rest IH]; intros acc.
  - cbn. repeat split; lia.
  - cbn [List.filter display_totals].
    destruct (is_running i) eqn:Hrun; unfold is_running in Hrun.
    + apply bool_decide_eq_true in Hrun.
      destruct (decide (status i = Running)); [| contradiction].
      cbn [display_totals length sum_keys fold_right].
      destruct (decide (status i = Running)); [| contradiction].
      destruct (IH (mkSummary (SFadd prec emax (total_speed acc) (keys_per_second i))
                      (total_keys acc + total_keys_checked i)
                      (active_instances acc + 1))) as (H1 & H2 & H3).
      split; [exact H1 |]. split.
      * rewrite H2. cbn [active_instances]. lia.
      * rewrite H3. cbn [total_keys]. unfold sum_keys. lia.
    + apply bool_decide_eq_false in Hrun.
      destruct (decide (status i = Running)); [contradiction |]. apply IH.
Qed.

(** X15: the totals of the status display are those of the running workers
    alone: the workers that are not running can be dropped from the fleet
    without changing any total, the count is the number of running workers
    and the key total is the sum of their counters. *)
Theorem display_counts_running_workers_only (values : list CloudShellInstance) :
  fst (display_status values) = fst (display_status (List.filter is_running values)) /\
  active_instances (fst (display_status values))
  = Z.of_nat (length (List.filter is_running values)) /\
  total_keys (fst (display_status values)) = sum_keys (List.filter is_running values).
Proof.
  unfold display_status. cbn [fst].
  destruct (display_totals_running (mkSummary (S754_zero false) 0 0) values)
    as (H1 & H2 & H3).
  rewrite H2, H3. cbn. auto.
Qed.

Lemma last_n_length {A} k (l : list A) : (length (last_n k l) <= k)%nat.
Proof. unfold last_n. rewrite length_skipn. lia. Qed.

Lemma last_n_In {A} k (l : list A) x : In x (last_n k l) -> In x l.
Proof.
  unfold last_n. intros H.
  rewrite <- (firstn_skipn (length l - k) l). apply in_or_app. now right.
Qed.

Lemma recent_errors_In values e :
  In e (recent_errors values) ->
  exists i, In i values /\ In e (last_n 2 (errors i)).
Proof.
  induction values as [| i rest IH]; cbn [recent_errors]; [intros [] |].
  intros H.
  assert (Hrest : In e (recent_errors rest) ->
                  exists j, In j (i :: rest) /\ In e (last_n 2 (errors j))).
  { intros Hr. destruct (IH Hr) as (j & Hj & He). exists j. split; [now right | exact He]. }
  destruct (errors i) as [| e0 es] eqn:Hi; [now apply Hrest |].
  apply in_app_or in H as [H | H]; [| now apply Hrest].
  exists i. split; [now left |]. now rewrite Hi.
Qed.

(** X16: the status display shows at most five error lines, and each of them
    is one of the last two entries of the error list of some worker; an
    older entry of a worker is never shown. *)
Theorem display_shows_recent_errors_only (values : list CloudShellInstance) :
  (length (snd (display_status values)) <= 5)%nat /\
  forall e, In e (snd (display_status values)) ->
    exists i, In i values /\ In e (last_n 2 (errors i)) /\
              (length (last_n 2 (errors i)) <= 2)%nat.
Proof.
  unfold display_status, displayed_errors. cbn [snd]. split.
  - apply last_n_length.
  - intros e He. apply last_n_In in He.
    destruct (recent_errors_In values e He) as (i & Hi & Hl).
    exists i. repeat split; try assumption. apply last_n_length.
Qed.

Lemma display_shows_recent_errors_only_witness :
  exists i, In i [noisy_instance] /\
            In "Status check error: c" (last_n 2 (errors i)) /\
            (length (last_n 2 (errors i)) <= 2)%nat.
Proof.
  exact (proj2 (display_shows_recent_errors_only [noisy_instance])
           "Status check error: c" ltac:(vm_compute; auto)).
Defined.

(** ** Configuration text *)

Lemma append_cons x (a b : string) : String x a +:+ b = String x (a +:+ b).
Proof. reflexivity. Qed.

Lemma append_assoc_r (a b c : string) : (a +:+ b) +:+ c = a +:+ (b +:+ c).
Proof.
  induction a as [| x a IH]; [reflexivity |].
  now rewrite !append_cons, IH.
Qed.

Lemma prefix_append sub b : String.prefix sub (sub +:+ b) = true.
Proof.
  induction sub as [| x sub IH]; [destruct b; reflexivity |].
  rewrite append_cons. cbn.
  destruct (ascii_dec x x); [exact IH | contradiction].
Qed.

Lemma contains_prefix sub s : String.prefix sub s = true -> contains sub s = true.
Proof. intros H. destruct s; cbn [contains]; [exact H | now rewrite H]. Qed.

Lemma contains_middle a sub b : contains sub (a +:+ sub +:+ b) = true.
Proof.
  induction a as [| x a IH].
  - change ("" +:+ sub +:+ b) with (sub +:+ b).
    apply contains_prefix, prefix_append.
  - rewrite append_cons. cbn [contains]. rewrite IH. apply orb_true_r.
Qed.

(** X17: for a non-empty fleet, creating the configuration of a worker
    succeeds; the interval it records in the range manager, the interval
    fields it writes to the handle and the [start=] and [end=] lines of the
    configuration text it returns all carry the same interval. *)
Theorem config_text_carries_assigned_interval (hash : string -> Z)
    (c : CloudShellCoordinator) (i : CloudShellInstance) :
  size (instances c) <> 0%nat ->
  exists c' i' content lo hi,
    create_config_for_instance hash c i = Ok (c', i', content) /\
    assigned_ranges (range_manager c') !! name i = Some (lo, hi) /\
    ranges_of i' = (hex lo, hex hi) /\
    contains (interval_lines (hex lo, hex hi)) content = true.
Proof.
  intros Hs. unfold create_config_for_instance.
  rewrite get_range_for_instance_index by lia.
  cbn [mbind result_bind mret result_ret].
  eexists _, _, _, _, _. split; [reflexivity |].
  split; [apply lookup_insert_eq |]. split; [reflexivity |].
  unfold interval_lines. cbn [fst snd name start_range end_range set_ranges].
  match goal with
  | |- contains ?sub (?p +:+ ?nm +:+ nl +:+ ?rest) = true =>
      match rest with
      | context [ "cores=0" +:+ ?tail ] =>
          replace (p +:+ nm +:+ nl +:+ rest)
            with ((p +:+ nm +:+ nl) +:+ sub +:+ "cores=0" +:+ tail)
            by (rewrite !append_assoc_r; reflexivity)
      end
  end.
  apply contains_middle.
Qed.

Lemma config_text_carries_assigned_interval_witness :
  exists c' i' content lo hi,
    create_config_for_instance length_hash added_coordinator fresh_instance
      = Ok (c', i', content) /\
    assigned_ranges (range_manager c') !! name fresh_instance = Some (lo, hi) /\
    ranges_of i' = (hex lo, hex hi) /\
    contains (interval_lines (hex lo, hex hi)) content = true.
Proof.
  exact (config_text_carries_assigned_interval length_hash added_coordinator
           fresh_instance ltac:(vm_compute; discriminate)).
Defined.

(** ** The loops *)

Section Loops.

Variable hash : string -> Z.

Lemma step_config c ev : config (step hash c ev) = config c.
Proof.
  destruct ev as [m ? ? ? ? ? | m connect pe scp ssh | m ps log now | m connect ssh];
    cbn [step]; [reflexivity | | |].
  - destruct (instances c !! m) as [i |] eqn:Hi;
      [| unfold start_instance; now rewrite Hi].
    rewrite (start_instance_eq _ _ _ _ _ _ _ _ Hi). cbn zeta.
    destruct (_ && _); [| reflexivity].
    rewrite start_solver_on_instance_eq by eauto using lookup_size_nonzero.
    reflexivity.
  - destruct (instances c !! m) as [i |] eqn:Hi;
      [| unfold health_check; now rewrite Hi].
    rewrite (health_check_eq _ _ _ _ _ _ Hi). destruct (decide _); reflexivity.
  - destruct (instances c !! m) as [i |] eqn:Hi;
      [| unfold restart_instance; now rewrite Hi].
    rewrite (restart_instance_eq _ _ _ _ _ _ Hi). cbn zeta.
    destruct (decide _); [| reflexivity].
    destruct (command_ok _); [| reflexivity].
    rewrite start_solver_on_instance_eq by eauto using lookup_size_nonzero.
    reflexivity.
Qed.

(** Iterations on other workers do not change what an iteration on [n]
    gets to see. *)
Lemma run_same_view n evs : forall c,
  forallb (fun ev => negb (is_add ev)) evs = true ->
  ~ In n (map event_worker evs) ->
  same_view n (run hash c evs) c.
Proof.
  induction evs as [| ev evs IH]; intros c Hadd Hn.
  - unfold same_view. cbn. auto.
  - cbn [forallb map] in *. apply andb_true_iff in Hadd as [Hev Hevs].
    apply negb_true_iff in Hev. rewrite run_cons.
    destruct (IH (step hash c ev) Hevs) as (H1 & H2 & H3 & H4 & H5);
      [intros H; apply Hn; now right |].
    destruct (step_fleet hash c ev) as (Hs & He & Hsz).
    unfold same_view.
    rewrite H1, H2, H3, H4, H5, Hs, He, (Hsz Hev), step_config.
    rewrite step_other by (intros H; apply Hn; now left). auto.
Qed.

(** What an iteration does to the handle of its worker depends only on
    what it sees of the coordinator. *)
Lemma step_same_view c1 c2 ev :
  is_add ev = false ->
  same_view (event_worker ev) c1 c2 ->
  instances (step hash c1 ev) !! event_worker ev
  = instances (step hash c2 ev) !! event_worker ev.
Proof.
  intros Hadd (Hi & Hcfg & Hsz & Hs & He).
  assert (Hup : forall j pe scp, upload_files_to_instance c1 j pe scp
                                 = upload_files_to_instance c2 j pe scp)
    by (intros; unfold upload_files_to_instance; now rewrite Hcfg).
  assert (Hstart : forall i j ssh,
            instances c1 !! event_worker ev = Some i ->
            instances (let '(c', i', _) := start_solver_on_instance hash c1 j ssh in
                       set_instance (event_worker ev) i' c') !! event_worker ev
            = instances (let '(c', i', _) := start_solver_on_instance hash c2 j ssh in
                         set_instance (event_worker ev) i' c') !! event_worker ev).
  { intros i j ssh H1.
    assert (H2 : instances c2 !! event_worker ev = Some i) by congruence.
    rewrite !start_solver_on_instance_eq by eauto using lookup_size_nonzero.
    cbn. rewrite !lookup_insert_eq, Hsz, Hs, He. reflexivity. }
  destruct ev as [m ? ? ? ? ? | m connect pe scp ssh | m ps log now | m connect ssh];
    cbn [step event_worker is_add] in *; [discriminate | | |].
  - destruct (instances c1 !! m) as [i |] eqn:H1.
    + rewrite (start_instance_eq _ _ _ _ _ _ _ _ H1).
      rewrite (start_instance_eq _ c2 _ i) by congruence. cbn zeta.
      rewrite Hup. destruct (_ && _); [now apply (Hstart i) |].
      cbn. now rewrite !lookup_insert_eq.
    + unfold start_instance. rewrite H1, <- Hi. congruence.
  - destruct (instances c1 !! m) as [i |] eqn:H1.
    + rewrite (health_check_eq _ _ _ _ _ _ H1).
      rewrite (health_check_eq c2 _ i) by congruence.
      destruct (decide _); [| congruence].
      cbn. now rewrite !lookup_insert_eq.
    + unfold health_check. rewrite H1, <- Hi. congruence.
  - destruct (instances c1 !! m) as [i |] eqn:H1.
    + rewrite (restart_instance_eq _ _ _ _ _ _ H1).
      rewrite (restart_instance_eq _ c2 _ i) by congruence. cbn zeta.
      destruct (decide _); [| congruence].
      destruct (command_ok _); [now apply (Hstart i) |].
      cbn. now rewrite !lookup_insert_eq.
    + unfold restart_instance. rewrite H1, <- Hi. congruence.
Qed.

Lemma run_app c evs1 evs2 :
  run hash c (evs1 ++ evs2) = run hash (run hash c evs1) evs2.
Proof. unfold run. apply foldl_app. Qed.

Lemma independent_iterations c evs ev :
  forallb (fun e => negb (is_add e)) evs = true ->
  NoDup (map event_worker evs) ->
  In ev evs ->
  instances (run hash c evs) !! event_worker ev
  = instances (step hash c ev) !! event_worker ev.
Proof.
  intros Hadd Hnd Hin.
  destruct (in_split ev evs Hin) as (l1 & l2 & ->).
  rewrite map_app in Hnd. cbn [map] in Hnd.
  apply NoDup_app in Hnd as (_ & Hdisj & Hnd2).
  apply NoDup_cons in Hnd2 as [Hn2 _].
  rewrite forallb_app in Hadd. apply andb_true_iff in Hadd as [Ha1 Ha2].
  cbn [forallb] in Ha2. apply andb_true_iff in Ha2 as [Hev Ha2].
  apply negb_true_iff in Hev.
  rewrite run_app, run_cons.
  destruct (run_same_view (event_worker ev) l2 (step hash (run hash c l1) ev) Ha2)
    as [-> _]; [now rewrite <- list_elem_of_In |].
  apply step_same_view; [exact Hev |].
  apply run_same_view; [exact Ha1 |].
  intros H. apply (Hdisj (event_worker ev)); [now apply list_elem_of_In |].
  apply elem_of_cons. now left.
Qed.

Lemma independent_loop (f : string -> event) c order n :
  (forall m, event_worker (f m) = m) ->
  (forall m, is_add (f m) = false) ->
  NoDup order -> In n order ->
  instances (run hash c (map f order)) !! n = instances (step hash c (f n)) !! n.
Proof.
  intros Hw Ha Hnd Hin.
  pose proof (independent_iterations c (map f order) (f n)) as H.
  rewrite (Hw n) in H. apply H.
  - apply forallb_forall. intros ev Hev. apply in_map_iff in Hev as (m & <- & _).
    now rewrite Ha.
  - rewrite map_map. rewrite (map_ext _ (fun m => m)) by exact Hw.
    now rewrite map_id.
  - now apply in_map.
Qed.

(** X18: within one pass of the fleet-start loop, of a health sweep or of
    the restart sweep over the workers of the fleet, what happens to the
    handle of a worker is what its own iteration alone would do to it: the
    iterations for the other workers, whatever their outcome, have no part
    in it. *)
Theorem loop_iterations_are_independent (c : CloudShellCoordinator)
    (order : list string) (n : string) :
  NoDup order -> In n order ->
  (forall answers,
     instances (start_coordination hash c order answers) !! n
     = instances (let '(connect, path_exists, scp, ssh) := answers n in
                  start_instance hash c n connect path_exists scp ssh) !! n) /\
  (forall answers,
     instances (health_check_loop hash c order answers) !! n
     = instances (let '(ps, log, now) := answers n in
                  health_check c n ps log now) !! n) /\
  (forall answers,
     instances (restart_failed_instances hash c order answers) !! n
     = instances (let '(connect, ssh) := answers n in
                  restart_instance hash c n connect ssh) !! n).
Proof.
  intros Hnd Hin. repeat split; intros answers.
  - unfold start_coordination, start_coordination_events.
    rewrite independent_loop; try assumption.
    + destruct (answers n) as [[[? ?] ?] ?]. reflexivity.
    + intros m. destruct (answers m) as [[[? ?] ?] ?]. reflexivity.
    + intros m. destruct (answers m) as [[[? ?] ?] ?]. reflexivity.
  - unfold health_check_loop, health_check_events.
    rewrite independent_loop; try assumption.
    + destruct (answers n) as [[? ?] ?]. reflexivity.
    + intros m. destruct (answers m) as [[? ?] ?]. reflexivity.
    + intros m. destruct (answers m) as [[? ?] ?]. reflexivity.
  - unfold restart_failed_instances, restart_failed_events.
    rewrite independent_loop; try assumption.
    + destruct (answers n) as [? ?]. reflexivity.
    + intros m. destruct (answers m) as [? ?]. reflexivity.
    + intros m. destruct (answers m) as [? ?]. reflexivity.
Qed.

End Loops.

Lemma loop_iterations_are_independent_witness :
  instances (start_coordination length_hash two_worker_coordinator
               ["puzzle-solver-1"; "puzzle-solver-2"] one_fails_answers)
    !! "puzzle-solver-2"
  = instances (start_instance length_hash two_worker_coordinator "puzzle-solver-2"
                 (process 0 "") (fun _ => true) (fun _ => process 0 "")
                 (fun _ => process 0 "")) !! "puzzle-solver-2".
Proof.
  exact (proj1 (loop_iterations_are_independent length_hash two_worker_coordinator
                  ["puzzle-solver-1"; "puzzle-solver-2"] "puzzle-solver-2"
                  ltac:(apply (bool_decide_unpack _); vm_compute; exact I)
                  ltac:(cbn; auto))
           one_fails_answers).
Defined.
